(** * ash: the job-control core of a small interactive shell

    A shallow embedding of the shell's C source: the job table
    ([addjob], [setjobstat], [findjob]), the token resolver ([parse_int],
    [parse_pid]), the line splitter ([parseline]), the evaluator ([eval],
    [builtin_command]), the foreground and background runners ([run_fg],
    [run_bg]) and the two signal handlers ([forward_signal], [reap_child]).

    Conventions of the embedding.
    - [int] and [pid_t] are 32-bit signed integers, carried as [Z].
    - The static array [jobs[MAXJOBS]] is a [list job]; the loops
      [for (i = 0; i < MAXJOBS; i++)] are recursions over that list which
      carry the index [i].
    - A C string is a [string] holding the characters before its NUL.
    - The globals [jobs], [next_jid] and [fg_pid] are fields of a state
      record that every function threads; what the program writes to the
      terminal and the signals it sends are logged in that record too.
    - The operating system (fork, kill, waitpid) is an explicit input.
    - Every function runs to its end before another starts: the signal
      masks that the handlers and [main] set and restore are not part of
      the state.  The buffer [sigbuf] lives only between a [sprintf] and
      the [psignal] that follows it, and is the string given to [psignal].
    - An execution that the C standard leaves undefined (reading an
      uninitialised local, signed overflow, a write outside an array) is the
      outcome [Undef]. *)

From Stdlib Require Import ZArith Lia Ascii String Sorted.
From stdpp Require Import base list strings pretty.
From Equations Require Import Equations.

Open Scope Z_scope.

(** ** Machine integers *)

Definition INT_MAX : Z := 2147483647.
Definition LONG_MAX : Z := 9223372036854775807.
Definition LONG_MIN : Z := -9223372036854775808.

(** The conversion [(int)] of a [long]: reduction modulo 2^32 into the
    signed range. *)
Definition int_of_long (v : Z) : Z :=
  (v + 2147483648) mod 4294967296 - 2147483648.

(** ** The job table *)

Definition MAXARGS : nat := 128.
Definition MAXJOBS : nat := 100.

Inductive Status : Set := UNINIT | RUNNING | STOPPED | TERMINATED.

#[global] Instance Status_eq_dec : EqDecision Status.
Proof. solve_decision. Defined.

Record job : Set := mkjob { pid : Z; jid : Z; st : Status }.

#[global] Instance job_eq_dec : EqDecision job.
Proof. solve_decision. Defined.

(** A zero-initialised static [job]. *)
Definition job0 : job := mkjob 0 0 UNINIT.

(** The two globals [jobs] and [next_jid]. *)
Record table : Set := mktable { jobs : list job; next_jid : Z }.

Definition table0 : table := mktable (replicate MAXJOBS job0) 0.

(** The kinds of undefined behaviour the program can run into. *)
Inductive ub : Set :=
| UninitRead      (* the value of an uninitialised local is used *)
| SignedOverflow  (* [++] on an [int] equal to INT_MAX *)
| OutOfBounds.    (* a write outside an array *)

Inductive result (A : Type) : Type :=
| Done (a : A)
| Undefined (u : ub).

Arguments Done {A} a.
Arguments Undefined {A} u.

(** The test [j->st == UNINIT || j->st == TERMINATED]. *)
Definition is_free (s : Status) : bool :=
  match s with
  | UNINIT | TERMINATED => true
  | RUNNING | STOPPED => false
  end.

(** A job is live when [jobs] would list it:
    [j.st != TERMINATED && j.st != UNINIT]. *)
Definition is_live (s : Status) : bool := negb (is_free s).

(** The local [job *free_job] of [addjob]: declared without an
    initialiser, so its value is indeterminate until the loop assigns it. *)
Inductive slot_ptr : Set :=
| Indeterminate
| Null
| SlotAt (i : nat).

(** How the loop of [addjob] ends: it returns from inside at slot [i]
    (holding [j]), or it falls through with [free_job] as it stands. *)
Inductive scan : Set :=
| Hit (i : nat) (j : job)
| Miss (free_job : slot_ptr).

Fixpoint addjob_scan (p : Z) (js : list job) (i : nat) (free_job : slot_ptr)
  : scan :=
  match js with
  | [] => Miss free_job
  | j :: js' =>
      if pid j =? p then Hit i j
      else if is_free (st j) then addjob_scan p js' (S i) (SlotAt i)
      else addjob_scan p js' (S i) free_job
  end.

Definition set_st (s : Status) (j : job) : job := mkjob (pid j) (jid j) s.

Definition addjob (p : Z) (s : Status) (t : table) : result (Z * table) :=
  match addjob_scan p (jobs t) 0 Indeterminate with
  | Hit i j =>
      Done (jid j, mktable (<[i := set_st s j]> (jobs t)) (next_jid t))
  | Miss Indeterminate => Undefined UninitRead
  | Miss Null => Done (-1, t)
  | Miss (SlotAt i) =>
      if next_jid t =? INT_MAX then Undefined SignedOverflow
      else
        let jid := next_jid t + 1 in
        Done (jid, mktable (<[i := mkjob p jid s]> (jobs t)) jid)
  end.

(** The loop shared by [setjobstat] and [findjob]: the first slot whose
    [pid] is [p]. *)
Fixpoint find_pid (p : Z) (js : list job) (i : nat) : option (nat * job) :=
  match js with
  | [] => None
  | j :: js' => if pid j =? p then Some (i, j) else find_pid p js' (S i)
  end.

Definition setjobstat (p : Z) (s : Status) (t : table) : Z * table :=
  match find_pid p (jobs t) 0 with
  | Some (i, j) =>
      (jid j, mktable (<[i := set_st s j]> (jobs t)) (next_jid t))
  | None => (-1, t)
  end.

(** [findjob] returns a pointer into [jobs] or NULL: the slot index. *)
Definition findjob (p : Z) (t : table) : option nat :=
  fst <$> find_pid p (jobs t) 0.

Definition jstatus_str (s : Status) : string :=
  match s with
  | UNINIT => "UNINIT"
  | RUNNING => "RUNNING"
  | STOPPED => "STOPPED"
  | TERMINATED => "TERMINATED"
  end.

(** ** C strings and the integer parser *)

Open Scope string_scope.
Open Scope Z_scope.

Definition SP : ascii := " "%char.

(** [isspace] in the C locale: space, and the control characters
    '\t' '\n' '\v' '\f' '\r' (9 to 13). *)
Definition isspace (c : ascii) : bool :=
  let n := Z.of_N (N_of_ascii c) in
  (n =? 32) || ((9 <=? n) && (n <=? 13)).

Definition digit_val (c : ascii) : option Z :=
  let n := Z.of_N (N_of_ascii c) in
  if (48 <=? n) && (n <=? 57) then Some (n - 48) else None.

Fixpoint skip_isspace (s : string) : string :=
  match s with
  | String c s' => if isspace c then skip_isspace s' else s
  | EmptyString => s
  end.

(** The digit loop of [strtol]: the value read so far and the rest. *)
Fixpoint strtol_digits (acc : Z) (s : string) : Z * string :=
  match s with
  | String c s' =>
      match digit_val c with
      | Some d => strtol_digits (10 * acc + d) s'
      | None => (acc, s)
      end
  | EmptyString => (acc, s)
  end.

Definition clamp_long (v : Z) : Z :=
  if v <? LONG_MIN then LONG_MIN
  else if LONG_MAX <? v then LONG_MAX
  else v.

(** [strtol(str, &endptr, 10)] of the C library, on a 64-bit [long]: white
    space, an optional sign, then decimal digits; a value out of range is
    clamped; when there is no digit the result is 0 and [endptr] is [str]
    itself.  The pair is the value and the string [endptr] points to. *)
Definition strtol (str : string) : Z * string :=
  let s1 := skip_isspace str in
  let '(neg, s2) :=
    match s1 with
    | String "-"%char r => (true, r)
    | String "+"%char r => (false, r)
    | _ => (false, s1)
    end in
  match s2 with
  | String c _ =>
      match digit_val c with
      | Some _ =>
          let '(v, rest) := strtol_digits 0 s2 in
          (clamp_long (if neg then - v else v), rest)
      | None => (0, str)
      end
  | EmptyString => (0, str)
  end.

Definition parse_int (str : string) : Z :=
  let '(v, endptr) := strtol str in
  let val := int_of_long v in
  match endptr with
  | String _ _ => -1
  | EmptyString => val
  end.

(** The guard both loops of [parse_pid] start with:
    [j->st == TERMINATED && j->st == UNINIT]. *)
Definition parse_pid_guard (j : job) : bool :=
  bool_decide (st j = TERMINATED) && bool_decide (st j = UNINIT).

Fixpoint parse_pid_by_jid (n : Z) (js : list job) : Z :=
  match js with
  | [] => -1
  | j :: js' =>
      if parse_pid_guard j then -1
      else if jid j =? n then pid j
      else parse_pid_by_jid n js'
  end.

Fixpoint parse_pid_by_pid (p : Z) (js : list job) : Z :=
  match js with
  | [] => -1
  | j :: js' =>
      if parse_pid_guard j then -1
      else if pid j =? p then p
      else parse_pid_by_pid p js'
  end.

Definition parse_pid (s : string) (t : table) : Z :=
  match s with
  | String "%"%char s' =>
      let jid := parse_int s' in
      if jid <=? 0 then -1
      else parse_pid_by_jid jid (jobs t)
  | _ => parse_pid_by_pid (parse_int s) (jobs t)
  end.

(** ** Splitting a command line *)

(** [buf[strlen(buf) - 1] = ' '] on a buffer that is not empty. *)
Fixpoint blank_last (buf : string) : string :=
  match buf with
  | EmptyString => EmptyString
  | String c EmptyString => String SP EmptyString
  | String c buf' => String c (blank_last buf')
  end.

(** The loop that steps [buf] over the blanks it starts with. *)
Fixpoint skip_blanks (buf : string) : string :=
  match buf with
  | String c buf' => if Ascii.eqb c SP then skip_blanks buf' else buf
  | EmptyString => buf
  end.

(** [strchr(s, c)] together with what the caller does with the pointer:
    the characters before the first [c] (the string [s] once [*delim] is
    set to NUL) and the characters after it ([delim + 1]). *)
Fixpoint strchr (s : string) (c : ascii) : option (string * string) :=
  match s with
  | EmptyString => None
  | String a s' =>
      if Ascii.eqb a c then Some (EmptyString, s')
      else match strchr s' c with
           | Some (tok, rest) => Some (String a tok, rest)
           | None => None
           end
  end.

(** The [while ((delim = strchr(buf, ' ')))] loop: the strings stored in
    [argv[0]], [argv[1]], ... in order. *)
Equations? split_args (buf : string) : list string
  by wf (String.length buf) lt :=
  split_args buf with Logic.inspect (strchr buf SP) := {
    | exist _ (Some (pair tok rest)) H => tok :: split_args (skip_blanks rest)
    | exist _ None _ => [] }.
Proof.
  assert (Hskip : forall s, (String.length (skip_blanks s) <= String.length s)%nat).
  { induction s as [|c s IH]; simpl; [lia|].
    destruct (Ascii.eqb c SP); simpl; lia. }
  assert (Hchr : forall s tok' rest',
             strchr s SP = Some (tok', rest') ->
             (String.length rest' < String.length s)%nat).
  { induction s as [|a s IH]; simpl; intros tok' rest' E; [discriminate|].
    destruct (Ascii.eqb a SP).
    - inversion E; subst; lia.
    - destruct (strchr s SP) as [[t r]|]; [|discriminate].
      inversion E; subst. specialize (IH _ _ eq_refl). lia. }
  specialize (Hchr _ _ _ H). specialize (Hskip rest). lia.
Qed.

(** Whether the first character of the last token is an ampersand, as
    [parseline] tests it on [argv[argc - 1]]; the NUL of an empty string
    is not one. *)
Definition starts_with_amp (tok : string) : bool :=
  match tok with
  | String c _ => Ascii.eqb c "&"%char
  | EmptyString => false
  end.

(** The tokens of a line: what the loop of [parseline] stores in [argv],
    before the function looks at the last of them. *)
Definition line_tokens (buf : string) : list string :=
  split_args (skip_blanks (blank_last buf)).

(** [parseline] fills [argv] (here: the strings before the NULL entry) and
    returns the flag [bg].  Two executions are undefined: an empty [buf],
    where [buf[strlen(buf) - 1]] is [buf[-1]], and a line of MAXARGS tokens
    or more, where the loop or [argv[argc] = NULL] writes past
    [argv[MAXARGS - 1]]. *)
Definition parseline (buf : string) : result (list string * bool) :=
  match buf with
  | EmptyString => Undefined OutOfBounds
  | _ =>
      let argv := line_tokens buf in
      if bool_decide (MAXARGS <= length argv)%nat then Undefined OutOfBounds
      else
        match last argv with
        | None => Done ([], true)
        | Some tok =>
            if starts_with_amp tok then Done (removelast argv, true)
            else Done (argv, false)
        end
  end.

(** ** Wait statuses and signals (Linux, glibc) *)

Definition SIGINT : Z := 2.
Definition SIGCONT : Z := 18.
Definition SIGTSTP : Z := 20.

Definition WTERMSIG (status : Z) : Z := Z.land status 127.
Definition WEXITSTATUS (status : Z) : Z := Z.shiftr (Z.land status 65280) 8.
Definition WSTOPSIG (status : Z) : Z := WEXITSTATUS status.

Definition WIFEXITED (status : Z) : bool := WTERMSIG status =? 0.

(** [((signed char) ((status & 0x7f) + 1) >> 1) > 0] *)
Definition WIFSIGNALED (status : Z) : bool :=
  let v := Z.land status 127 + 1 in
  let sc := if 128 <=? v then v - 256 else v in
  0 <? Z.shiftr sc 1.

Definition WIFSTOPPED (status : Z) : bool := Z.land status 255 =? 127.
Definition WIFCONTINUED (status : Z) : bool := status =? 65535.

(** What can happen to a child, and the status word [waitpid] stores for
    it. *)
Inductive child_event : Set :=
| Exited (code : Z)
| Killed (sig : Z) (core : bool)
| Stopped (sig : Z)
| Continued.

Definition wstatus (e : child_event) : Z :=
  match e with
  | Exited code => Z.shiftl code 8
  | Killed sig core => Z.lor sig (if core then 128 else 0)
  | Stopped sig => Z.lor (Z.shiftl sig 8) 127
  | Continued => 65535
  end.

(** Exit codes are one byte; Linux signals are numbered 1 to 64. *)
Definition valid_event (e : child_event) : bool :=
  match e with
  | Exited code => (0 <=? code) && (code <=? 255)
  | Killed sig _ | Stopped sig => (1 <=? sig) && (sig <=? 64)
  | Continued => true
  end.

(** ** The shell's state and its effects *)

Inductive output : Set :=
| Stdout (text : string)             (* printf *)
| Stderr (text : string)             (* the message given to unix_error *)
| Psignal (sig : Z) (msg : string).  (* psignal (sig, msg) *)

Record shell : Set := mkshell {
  tbl : table;              (* jobs and next_jid *)
  fg_pid : Z;
  out : list output;        (* what was printed, oldest first *)
  kills : list (Z * Z)      (* the calls kill (pid, sig), oldest first *)
}.

Definition shell0 : shell := mkshell table0 0 [] [].

(** What the operating system answers during one call of [eval] or of a
    handler: the values returned by [fork], [kill] and [waitpid] for a
    given pid, and the status word that [waitpid] stores. *)
Record os : Set := mkos {
  os_fork : Z;
  os_kill : Z;
  os_wait : Z;
  os_status : Z
}.

Inductive outcome (A : Type) : Type :=
| Ret (a : A) (s : shell)            (* the call returns *)
| Exit (s : shell)                   (* the shell called exit *)
| Child (argv : list string) (s : shell)
                                     (* fork returned 0: this process is the
                                        child, which goes on to execve *)
| Hang                               (* a wait that never returns *)
| Undef (u : ub).

Arguments Ret {A} a s.
Arguments Exit {A} s.
Arguments Child {A} argv s.
Arguments Hang {A}.
Arguments Undef {A} u.

Definition M (A : Type) : Type := shell -> outcome A.

#[global] Instance M_ret : MRet M := fun A a s => Ret a s.

#[global] Instance M_bind : MBind M := fun A B f m s =>
  match m s with
  | Ret a s' => f a s'
  | Exit s' => Exit s'
  | Child argv s' => Child argv s'
  | Hang => Hang
  | Undef u => Undef u
  end.

Definition NL : string := String (ascii_of_nat 10) EmptyString.

Definition fmt_d (n : Z) : string := pretty n.

Definition get_table : M table := fun s => Ret (tbl s) s.
Definition get_fg_pid : M Z := fun s => Ret (fg_pid s) s.

Definition set_table (t : table) : M unit := fun s =>
  Ret () (mkshell t (fg_pid s) (out s) (kills s)).

Definition set_fg_pid (p : Z) : M unit := fun s =>
  Ret () (mkshell (tbl s) p (out s) (kills s)).

Definition emit (o : output) : M unit := fun s =>
  Ret () (mkshell (tbl s) (fg_pid s) (out s ++ [o]) (kills s)).

Definition printf (text : string) : M unit := emit (Stdout text).
Definition psignal (sig : Z) (msg : string) : M unit := emit (Psignal sig msg).

Definition exit0 {A} : M A := fun s => Exit s.

Definition unix_error {A} (msg : string) : M A :=
  emit (Stderr msg) ;; exit0.

Definition kill (o : os) (p sig : Z) : M Z := fun s =>
  Ret (os_kill o) (mkshell (tbl s) (fg_pid s) (out s) (kills s ++ [(p, sig)])).

Definition addjob_m (p : Z) (st : Status) : M Z := fun s =>
  match addjob p st (tbl s) with
  | Done (j, t) => Ret j (mkshell t (fg_pid s) (out s) (kills s))
  | Undefined u => Undef u
  end.

Definition setjobstat_m (p : Z) (st : Status) : M Z :=
  t ← get_table;
  let '(j, t') := setjobstat p st t in
  set_table t' ;; mret j.

(** ** Running a job in the foreground or in the background *)

Definition run_fg (o : os) (p : Z) : M unit :=
  set_fg_pid p ;;
  if os_wait o <? 0 then unix_error "waitpid error"
  else
    let status := os_status o in
    if WIFSIGNALED status then
      jid ← setjobstat_m p TERMINATED;
      let sigbuf :=
        if bool_decide (jid ≠ -1)
        then "Job [" +:+ fmt_d jid +:+ "] " +:+ fmt_d p +:+ " terminated by signal"
        else "Job [-] " +:+ fmt_d p +:+ " terminated by signal" in
      psignal (WTERMSIG status) sigbuf
    else if WIFSTOPPED status then
      set_fg_pid 0 ;;
      jid ← addjob_m p STOPPED;
      if jid <? 0 then printf ("Could not add new job" +:+ NL) ;; exit0
      else
        set_fg_pid 0 ;;
        psignal (WSTOPSIG status)
          ("Job [" +:+ fmt_d jid +:+ "] " +:+ fmt_d p +:+ " stopped by signal")
    else mret ().

Definition run_bg (p : Z) (cmd : string) : M unit :=
  set_fg_pid 0 ;;
  jid ← addjob_m p RUNNING;
  if jid <? 0 then printf ("Could not add new job" +:+ NL) ;; exit0
  else printf ("[" +:+ fmt_d jid +:+ "] " +:+ fmt_d p +:+ " " +:+ cmd +:+ NL).

(** The loop of the built-in [jobs]. *)
Fixpoint print_jobs (js : list job) : M unit :=
  match js with
  | [] => mret ()
  | j :: js' =>
      (if bool_decide (st j ≠ TERMINATED) && bool_decide (st j ≠ UNINIT)
       then printf ("[" +:+ fmt_d (jid j) +:+ "] " +:+ fmt_d (pid j) +:+ " "
                    +:+ jstatus_str (st j) +:+ NL)
       else mret ()) ;;
      print_jobs js'
  end.

(** [builtin_command] reads no entry of [argv] but [argv[0]], here [cmd];
    it returns 1 ([true]) when the command was a built-in. *)
Definition builtin_command (cmd : string) : M bool :=
  if bool_decide (cmd = "quit") then exit0
  else if bool_decide (cmd = "jobs") then
    t ← get_table; print_jobs (jobs t) ;; mret true
  else mret false.

(** ** The evaluator *)

Section Evaluator.

(** The two versions of the source differ in [run_fg], in
    [builtin_command] and in the message of a failed [kill]. *)
Variable run_fg : os -> Z -> M unit.
Variable builtin_command : string -> M bool.
Variable kill_error : string.

(** The branch shared by [fg] and [bg], up to what is done with the
    process once it is resumed. *)
Definition resume (o : os) (id_part : string) (run : Z -> M unit) : M unit :=
  t ← get_table;
  let stp_pid := parse_pid id_part t in
  if 0 <? stp_pid then
    r ← kill o stp_pid SIGCONT;
    if r <? 0 then unix_error kill_error else run stp_pid
  else printf (id_part +:+ ": No such process" +:+ NL).

Definition eval_with (o : os) (cmdline : string) : M unit :=
  match parseline cmdline with
  | Undefined u => fun _ => Undef u
  | Done (argv, bg) =>
      match argv with
      | [] => mret ()
      | cmd :: args =>
          if bool_decide (cmd = "&") then mret ()
          else if bool_decide (cmd = "fg") then
            match args with
            | [] => mret ()
            | id_part :: _ => resume o id_part (run_fg o)
            end
          else if bool_decide (cmd = "bg") then
            match args with
            | [] => mret ()
            | id_part :: _ => resume o id_part (fun p => run_bg p "")
            end
          else
            b ← builtin_command cmd;
            if b : bool then mret ()
            else
              let pid := os_fork o in
              if pid <? 0 then unix_error "Fork error"
              else if pid =? 0 then (Child argv : M unit)
              else if bg then run_bg pid cmdline
              else run_fg o pid
      end
  end.

End Evaluator.

Definition eval : os -> string -> M unit :=
  eval_with run_fg builtin_command "Forward SIGCONT error".

(** ** The signal handlers *)

Definition forward_signal (o : os) (sig : Z) : M unit :=
  fg ← get_fg_pid;
  if bool_decide (fg ≠ 0) then
    printf ("[ForwardSignalHandler] forwarding sig " +:+ fmt_d sig +:+ " to "
            +:+ fmt_d fg +:+ NL) ;;
    r ← kill o fg sig;
    if r <? 0 then unix_error "Forward SIGINT|SIGTSTP error" else mret ()
  else mret ().

(** The children whose change of state has not been collected yet, oldest
    first, each with its status word. *)
Definition pending : Set := list (Z * Z).

Record wait_options : Set := mkopts {
  WNOHANG : bool;
  WUNTRACED : bool;
  WCONTINUED : bool
}.

Inductive wait_ret : Set :=
| Reaped (p status : Z) (rest : pending)   (* returns p, a pid *)
| NoChange                                 (* returns 0, or -1 with ECHILD *)
| Blocks.                                  (* does not return *)

(** Stops are reported under WUNTRACED only, continues under WCONTINUED
    only, terminations always. *)
Definition reported (opts : wait_options) (status : Z) : bool :=
  if WIFSTOPPED status then WUNTRACED opts
  else if WIFCONTINUED status then WCONTINUED opts
  else true.

(** [waitpid(-1, &status, opts)]: the oldest change that [opts] asks for is
    taken off the list; when there is none the call returns at once under
    WNOHANG, and waits otherwise. *)
Fixpoint waitpid_any (opts : wait_options) (q : pending) : wait_ret :=
  match q with
  | [] => if WNOHANG opts then NoChange else Blocks
  | (p, status) :: q' =>
      if reported opts status then Reaped p status q'
      else match waitpid_any opts q' with
           | Reaped p' status' rest => Reaped p' status' ((p, status) :: rest)
           | r => r
           end
  end.

(** [WNOHANG | WUNTRACED | WCONTINUED] *)
Definition reap_options : wait_options := mkopts true true true.

(** The status [reap_child] derives from a status word. *)
Definition reap_status (status : Z) : Status :=
  if WIFEXITED status || WIFSIGNALED status then TERMINATED
  else if WIFSTOPPED status then STOPPED
  else RUNNING.

(** One turn of the body of the [while] loop of [reap_child]. *)
Definition reap_one (p status : Z) : M unit :=
  let st := reap_status status in
  printf ("[ReapChildHandler] setjobstat " +:+ fmt_d p +:+ " to "
          +:+ jstatus_str st +:+ NL) ;;
  setjobstat_m p st ;; mret ().

(** [reap_child]: the loop runs while [waitpid] returns a pid.  The result
    is the list of changes still pending when the handler returns. *)
Equations? reap_child (q : pending) (s : shell) : outcome pending
  by wf (length q) lt :=
  reap_child q s with Logic.inspect (waitpid_any reap_options q) := {
    | exist _ (Reaped p status rest) H with reap_one p status s := {
        | Ret _ s' => reap_child rest s'
        | Exit s' => Exit s'
        | Child argv s' => Child argv s'
        | Hang => Hang
        | Undef u => Undef u }
    | exist _ NoChange _ => Ret q s
    | exist _ Blocks _ => Hang }.
Proof.
  clear - H. revert p status rest H.
  induction q as [|[p0 s0] q IH]; simpl; intros p status rest H.
  - destruct (WNOHANG reap_options); discriminate.
  - destruct (reported reap_options s0).
    + inversion H; subst; lia.
    + destruct (waitpid_any reap_options q) as [p' st' r| |] eqn:E;
        try discriminate.
      inversion H; subst. specialize (IH _ _ _ eq_refl). simpl. lia.
Qed.

(** ** The earlier version of the shell

    The repository holds a second, shorter version of the same program.
    Its job table, [parse_pid], [parseline], [run_bg] and the body of [eval]
    are the same; the functions below are the ones that differ. *)

Module Early.

Definition forward_signal (o : os) (sig : Z) : M unit :=
  fg ← get_fg_pid;
  if bool_decide (fg ≠ 0) then
    printf ("forwarding sig " +:+ fmt_d sig +:+ " to " +:+ fmt_d fg +:+ NL) ;;
    r ← kill o fg sig;
    if r <? 0 then unix_error "Forward signal error"
    else
      let st := if sig =? SIGINT then TERMINATED else STOPPED in
      addjob_m fg st ;; mret ()
  else mret ().

(** The handler of SIGCHLD prints a line and collects nothing. *)
Definition reap_child (q : pending) : M pending :=
  printf "reap child handler" ;; mret q.

Definition run_fg (o : os) (p : Z) : M unit :=
  set_fg_pid p ;;
  if os_wait o <? 0 then unix_error "waitpid error"
  else
    let status := os_status o in
    if WIFSIGNALED status then
      psignal (WTERMSIG status)
        ("Job [-] " +:+ fmt_d p +:+ " terminated by signal")
    else if WIFSTOPPED status then
      psignal (WSTOPSIG status)
        ("Job [-] " +:+ fmt_d p +:+ " stopped by signal")
    else mret ().

Definition builtin_command (cmd : string) : M bool :=
  printf ("argv[0] " +:+ cmd +:+ NL) ;;
  if bool_decide (cmd = "quit") then exit0
  else if bool_decide (cmd = "jobs") then
    t ← get_table; print_jobs (jobs t) ;; mret true
  else mret false.

Definition eval : os -> string -> M unit :=
  eval_with run_fg builtin_command "Forward signal error".

End Early.

(** ** Sequences of calls on the job table *)

Inductive call : Set :=
| Addjob (p : Z) (s : Status)
| Setjobstat (p : Z) (s : Status).

Definition step (c : call) (t : table) : result (Z * table) :=
  match c with
  | Addjob p s => addjob p s t
  | Setjobstat p s => Done (setjobstat p s t)
  end.

(** The table after the calls [cs], made in order. *)
Fixpoint run (cs : list call) (t : table) : result table :=
  match cs with
  | [] => Done t
  | c :: cs' =>
      match step c t with
      | Done (_, t') => run cs' t'
      | Undefined u => Undefined u
      end
  end.

(** The tables the calls [cs] go through, the starting one first, up to
    the end of [cs] or to the first call whose behaviour is undefined. *)
Fixpoint tables (cs : list call) (t : table) : list table :=
  match cs with
  | [] => [t]
  | c :: cs' =>
      t :: match step c t with
           | Done (_, t') => tables cs' t'
           | Undefined _ => []
           end
  end.

(** A call allocates when it is an [addjob] whose loop finds no slot
    holding the pid. *)
Definition allocates (c : call) (t : table) : bool :=
  match c with
  | Addjob p _ => bool_decide (findjob p t = None)
  | Setjobstat _ _ => false
  end.

(** The jids returned by the allocating calls among [cs], in order, up to
    the end of [cs] or to the first call whose behaviour is undefined. *)
Fixpoint issued (cs : list call) (t : table) : list Z :=
  match cs with
  | [] => []
  | c :: cs' =>
      match step c t with
      | Done (j, t') =>
          if allocates c t then j :: issued cs' t' else issued cs' t'
      | Undefined _ => []
      end
  end.

(** The slots that the built-in [jobs] lists. *)
Definition live_jobs (t : table) : list job :=
  filter (fun j => is_live (st j) = true) (jobs t).

(** No two slots hold the same pid in a live status. *)
Definition unique_live (t : table) : Prop :=
  forall i i' j j',
    jobs t !! i = Some j -> jobs t !! i' = Some j' ->
    is_live (st j) = true -> is_live (st j') = true ->
    pid j = pid j' -> i = i'.

(** The invariant that gives it: a slot that is not the first to hold its pid
    is not live. *)
Definition first_live (t : table) : Prop :=
  forall i i' j j',
    (i < i')%nat -> jobs t !! i = Some j -> jobs t !! i' = Some j' ->
    pid j = pid j' -> is_live (st j') = false.

(** The status a change of state stands for: TERMINATED for a normal exit
    and for a fatal signal, STOPPED for a stop, RUNNING for a continue. *)
Definition status_of_event (e : child_event) : Status :=
  match e with
  | Exited _ | Killed _ _ => TERMINATED
  | Stopped _ => STOPPED
  | Continued => RUNNING
  end.

(** The changes of state of some children as [waitpid] hands them out. *)
Definition pending_of (es : list (Z * child_event)) : pending :=
  (fun pe => (pe.1, wstatus pe.2)) <$> es.

(** ** Two statements that are put to the test below *)

(** The background flag as the grammar of the command line words it: set
    exactly when the final token is the one-character string made of an
    ampersand. *)
Definition bg_iff_final_token_is_amp (buf : string) : Prop :=
  forall argv bg,
    parseline buf = Done (argv, bg) ->
    (bg = true <-> last (line_tokens buf) = Some "&").

Definition stopped_notice (j p : Z) : string :=
  "Job [" +:+ fmt_d j +:+ "] " +:+ fmt_d p +:+ " stopped by signal".

(** A stop of the foreground job as the description of the foreground
    waiter words it: one more listed job, which holds the pid as STOPPED
    under a jid that is newly assigned, and a notice that bears this jid. *)
Definition stop_adds_one_job (o : os) (p : Z) (s : shell) : Prop :=
  exists s' j,
    run_fg o p s = Ret () s' /\
    length (live_jobs (tbl s')) = S (length (live_jobs (tbl s))) /\
    j = next_jid (tbl s) + 1 /\
    (mkjob p j STOPPED ∈ jobs (tbl s')) /\
    out s' = (out s ++ [Psignal (WSTOPSIG (os_status o)) (stopped_notice j p)])%list.

(** ** Some tables the shell can be in *)

(** The table that the calls [cs] build from the initial one. *)
Definition after (cs : list call) : table :=
  match run cs table0 with
  | Done t => t
  | Undefined _ => table0
  end.

(** A job that was started in the background and has terminated. *)
Definition finished_calls : list call :=
  [Addjob 5 RUNNING; Setjobstat 5 TERMINATED].
Definition table_finished : table := after finished_calls.

(** One stopped job. *)
Definition table_stopped : table := after [Addjob 7 STOPPED].

(** MAXJOBS running jobs, with the pids 1 to MAXJOBS. *)
Definition full_calls : list call :=
  (fun n => Addjob (Z.of_nat n) RUNNING) <$> seq 1 MAXJOBS.
Definition table_full : table := after full_calls.

(** ** The main loop *)

(** A signal that reaches the shell while [main] waits for a line in
    [fgets]: an interactive one, which runs [forward_signal] with what the
    operating system answers to its [kill], or SIGCHLD, which runs
    [reap_child] on the changes of state pending at that moment.  During
    [eval] SIGCHLD is blocked by [main]; the interactive signals that come
    in during [eval] run [forward_signal], which writes to the terminal and
    sends a signal but touches neither the table nor [fg_pid], and are not
    part of this model. *)
Inductive arrival : Set :=
| Interactive (o : os) (sig : Z)
| ChildStatus (q : pending).

Definition handle (a : arrival) : M unit :=
  match a with
  | Interactive o sig => forward_signal o sig
  | ChildStatus q => (reap_child q : M pending) ;; mret ()
  end.

Fixpoint handle_all (arrivals : list arrival) : M unit :=
  match arrivals with
  | [] => mret ()
  | a :: arrivals' => handle a ;; handle_all arrivals'
  end.

(** One turn of the loop of [main]: the signals that arrive at the prompt,
    the line that [fgets] stores (the stream is not at its end after it),
    and what the operating system answers during [eval]. *)
Record turn : Set := mkturn {
  arrivals : list arrival;
  answers : os;
  cmdline : string
}.

(** [main], once the three handlers are installed: a prompt and a call of
    [eval] for each line, then a last prompt, after which [feof] holds and
    the shell exits. *)
Fixpoint main_loop (turns : list turn) (last_arrivals : list arrival)
  : M unit :=
  match turns with
  | [] => printf "> " ;; handle_all last_arrivals ;; exit0
  | t :: turns' =>
      printf "> " ;;
      handle_all (arrivals t) ;;
      eval (answers t) (cmdline t) ;;
      main_loop turns' last_arrivals
  end.

(** ** Statements about whole tables and lines *)

(** What holds of the table at every moment: it has MAXJOBS slots, the
    counter is a non-negative [int], a slot that is not the first with its
    pid is not live, every jid lies between 0 and the counter, and a jid
    other than 0 is held by one slot only. *)
Record table_inv (t : table) : Prop := mk_table_inv {
  inv_length : length (jobs t) = MAXJOBS;
  inv_counter : 0 <= next_jid t <= INT_MAX;
  inv_first_live : first_live t;
  inv_jid_range : forall i j, jobs t !! i = Some j -> 0 <= jid j <= next_jid t;
  inv_jid_unique :
    forall i i' j j',
      jobs t !! i = Some j -> jobs t !! i' = Some j' ->
      jid j = jid j' -> jid j <> 0 -> i = i'
}.

(** The table of a state in which a call has ended, when it has one. *)
Definition final_table {A} (r : outcome A) : option table :=
  match r with
  | Ret _ s | Exit s | Child _ s => Some (tbl s)
  | Hang | Undef _ => None
  end.

(** A computation keeps the invariant of the table when, started in a
    state whose table has it, it ends in one whose table has it. *)
Definition keeps_inv {A} (m : M A) : Prop :=
  forall s, table_inv (tbl s) ->
    match final_table (m s) with
    | Some t' => table_inv t'
    | None => True
    end.

(** The line that the built-in [jobs] prints for a slot. *)
Definition job_line (j : job) : string :=
  "[" +:+ fmt_d (jid j) +:+ "] " +:+ fmt_d (pid j) +:+ " "
  +:+ jstatus_str (st j) +:+ NL.

(** The characters of a string. *)
Fixpoint chars (s : string) : list ascii :=
  match s with
  | EmptyString => []
  | String c s' => c :: chars s'
  end.

(** A token as [parseline] cuts them: not empty, and without a blank. *)
Definition is_token (tok : string) : Prop :=
  tok <> "" /\ SP ∉ chars tok.

(** A buffer whose first character, if any, is not a blank. *)
Definition head_not_blank (buf : string) : Prop :=
  match buf with
  | String c _ => c <> SP
  | EmptyString => True
  end.

(** Tokens written one after the other, a blank after each: the buffer
    of [parseline] once its last character is blanked. *)
Fixpoint unwords (toks : list string) : string :=
  match toks with
  | [] => ""
  | tok :: toks' => tok +:+ " " +:+ unwords toks'
  end.

(** A command line made of the tokens: single blanks between them and a
    newline at the end. *)
Fixpoint line_of (toks : list string) : string :=
  match toks with
  | [] => NL
  | [tok] => tok +:+ NL
  | tok :: toks' => tok +:+ " " +:+ line_of toks'
  end.

(** * Properties *)

(** ** The scans of the job table *)

Section Scans.

Implicit Types (p : Z) (js : list job) (i k : nat) (j : job).

(** [find_pid] returns the first slot holding the pid. *)
Lemma find_pid_Some p js i0 i j :
  find_pid p js i0 = Some (i, j) ->
  exists k, i = (i0 + k)%nat /\ js !! k = Some j /\ pid j = p /\
            forall k' j', (k' < k)%nat -> js !! k' = Some j' -> pid j' <> p.
Proof.
  revert i0. induction js as [|j0 js IH]; simpl; intros i0 H; [discriminate|].
  destruct (pid j0 =? p) eqn:E.
  - inversion H; subst. exists 0%nat. apply Z.eqb_eq in E.
    split_and!; [lia | done | done | intros; lia].
  - apply IH in H as (k & -> & Hk & Hp & Hfirst).
    exists (S k). split_and!; [lia | done | done |].
    intros [|k'] j' Hlt Hj'; simpl in Hj'.
    + inversion Hj'; subst. by apply Z.eqb_neq.
    + apply (Hfirst k'); [lia | done].
Qed.

Lemma find_pid_None p js i0 :
  find_pid p js i0 = None ->
  forall k j, js !! k = Some j -> pid j <> p.
Proof.
  revert i0. induction js as [|j0 js IH]; simpl; intros i0 H k j Hk; [done|].
  destruct (pid j0 =? p) eqn:E; [discriminate|].
  destruct k as [|k]; simpl in Hk.
  - inversion Hk; subst. by apply Z.eqb_neq.
  - by eapply IH.
Qed.

Lemma find_pid_absent p js i0 :
  (forall k j, js !! k = Some j -> pid j <> p) -> find_pid p js i0 = None.
Proof.
  destruct (find_pid p js i0) as [[i j]|] eqn:E; [|done].
  intros H. apply find_pid_Some in E as (k & _ & Hk & Hp & _).
  by destruct (H _ _ Hk).
Qed.

(** The loop of [addjob] leaves at the slot [find_pid] finds, whatever
    [free_job] holds. *)
Lemma addjob_scan_Hit p js i0 f i j :
  find_pid p js i0 = Some (i, j) -> addjob_scan p js i0 f = Hit i j.
Proof.
  revert i0 f. induction js as [|j0 js IH]; simpl; intros i0 f H; [discriminate|].
  destruct (pid j0 =? p); [by inversion H|].
  destruct (is_free (st j0)); by apply IH.
Qed.

(** When no slot holds the pid the loop runs to the end, and [free_job] is
    the last free slot, or is left as it was when there is none. *)
Lemma addjob_scan_Miss p js i0 f :
  find_pid p js i0 = None ->
  (addjob_scan p js i0 f = Miss f /\
   forall k j, js !! k = Some j -> is_free (st j) = false)
  \/
  (exists k j, addjob_scan p js i0 f = Miss (SlotAt (i0 + k)) /\
               js !! k = Some j /\ is_free (st j) = true /\
               forall k' j', (k < k')%nat -> js !! k' = Some j' ->
                             is_free (st j') = false).
Proof.
  revert i0 f. induction js as [|j0 js IH]; simpl; intros i0 f H.
  - left. split; [done | intros k j Hk; done].
  - destruct (pid j0 =? p); [discriminate|].
    destruct (is_free (st j0)) eqn:Hfree.
    + destruct (IH (S i0) (SlotAt i0) H) as [[Hm Hnone] | (k & j & Hm & Hk & Hf & Hlast)].
      * right. exists 0%nat, j0. rewrite Hm, Nat.add_0_r.
        split_and!; try done.
        intros [|k'] j' Hlt Hj'; [lia|]. simpl in Hj'. by eapply Hnone.
      * right. exists (S k), j. rewrite Hm.
        replace (S i0 + k)%nat with (i0 + S k)%nat by lia.
        split_and!; try done.
        intros [|k'] j' Hlt Hj'; [lia|]. simpl in Hj'.
        apply (Hlast k'); [lia | done].
    + destruct (IH (S i0) f H) as [[Hm Hnone] | (k & j & Hm & Hk & Hf & Hlast)].
      * left. split; [done|].
        intros [|k'] j' Hj'; simpl in Hj'; [by inversion Hj'; subst|].
        by eapply Hnone.
      * right. exists (S k), j. rewrite Hm.
        replace (S i0 + k)%nat with (i0 + S k)%nat by lia.
        split_and!; try done.
        intros [|k'] j' Hlt Hj'; [lia|]. simpl in Hj'.
        apply (Hlast k'); [lia | done].
Qed.

(** The comparison [free_job != NULL] never sees NULL: the loop has
    assigned a slot, or the local is still indeterminate. *)
Lemma addjob_scan_not_Null p js i0 :
  addjob_scan p js i0 Indeterminate <> Miss Null.
Proof.
  destruct (find_pid p js i0) as [[i j]|] eqn:E.
  - by rewrite (addjob_scan_Hit _ _ _ _ _ _ E).
  - destruct (addjob_scan_Miss p js i0 Indeterminate E)
      as [[-> _] | (k & j & -> & _)]; discriminate.
Qed.

End Scans.

(** ** What [addjob] and [setjobstat] do to the table *)

Section JobTable.

Implicit Types (p : Z) (s : Status) (t : table) (j : job).

Lemma find_pid_present p t k j :
  jobs t !! k = Some j -> pid j = p ->
  exists i j', find_pid p (jobs t) 0 = Some (i, j').
Proof.
  intros Hk Hp. destruct (find_pid p (jobs t) 0) as [[i j']|] eqn:E; [eauto|].
  by destruct (find_pid_None _ _ _ E _ _ Hk).
Qed.

(** Re-registration: a slot holds the pid. *)
Lemma addjob_hit p s t i j :
  find_pid p (jobs t) 0 = Some (i, j) ->
  addjob p s t =
    Done (jid j, mktable (<[i := set_st s j]> (jobs t)) (next_jid t)).
Proof.
  intros H. unfold addjob.
  by rewrite (addjob_scan_Hit _ _ _ Indeterminate _ _ H).
Qed.

(** Allocation: no slot holds the pid, and some slot is free. *)
Lemma addjob_fresh p s t k0 j0 :
  find_pid p (jobs t) 0 = None ->
  jobs t !! k0 = Some j0 -> is_free (st j0) = true ->
  next_jid t <> INT_MAX ->
  exists k j,
    jobs t !! k = Some j /\ is_free (st j) = true /\
    addjob p s t =
      Done (next_jid t + 1,
            mktable (<[k := mkjob p (next_jid t + 1) s]> (jobs t))
                    (next_jid t + 1)).
Proof.
  intros Hnone Hk0 Hfree Hmax. unfold addjob.
  destruct (addjob_scan_Miss p (jobs t) 0 Indeterminate Hnone)
    as [[_ Hfull] | (k & j & -> & Hk & Hf & _)].
  - rewrite (Hfull _ _ Hk0) in Hfree. discriminate.
  - exists k, j. simpl. apply Z.eqb_neq in Hmax. by rewrite Hmax.
Qed.

(** A full table: the loop assigns nothing to [free_job], and the test
    that follows reads it. *)
Lemma addjob_full p s t :
  (forall k j, jobs t !! k = Some j -> pid j <> p /\ is_free (st j) = false) ->
  addjob p s t = Undefined UninitRead.
Proof.
  intros H. unfold addjob.
  assert (Hnone : find_pid p (jobs t) 0 = None).
  { apply find_pid_absent. intros k j Hk. by apply (H k j). }
  destruct (addjob_scan_Miss p (jobs t) 0 Indeterminate Hnone)
    as [[-> _] | (k & j & _ & Hk & Hf & _)]; [done|].
  destruct (H _ _ Hk) as [_ Hnf]. congruence.
Qed.

(** [addjob] returns whenever a slot holds the pid, or a slot is free and
    the counter can be incremented. *)
Lemma addjob_defined p s t :
  (exists k j, jobs t !! k = Some j /\ pid j = p) \/
  ((exists k j, jobs t !! k = Some j /\ is_free (st j) = true) /\
   next_jid t <> INT_MAX) ->
  exists r t', addjob p s t = Done (r, t').
Proof.
  destruct (find_pid p (jobs t) 0) as [[i j]|] eqn:E.
  - intros _. rewrite (addjob_hit _ _ _ _ _ E). eauto.
  - intros [(k & j & Hk & Hp) | [(k & j & Hk & Hf) Hmax]].
    + by destruct (find_pid_None _ _ _ E _ _ Hk).
    + destruct (addjob_fresh p s t k j E Hk Hf Hmax) as (k' & j' & _ & _ & ->).
      eauto.
Qed.

(** The two ways in which [addjob] returns. *)
Lemma addjob_Done p s t r t' :
  addjob p s t = Done (r, t') ->
  (exists i j, find_pid p (jobs t) 0 = Some (i, j) /\ r = jid j /\
               t' = mktable (<[i := set_st s j]> (jobs t)) (next_jid t))
  \/
  (find_pid p (jobs t) 0 = None /\
   exists k j, jobs t !! k = Some j /\ is_free (st j) = true /\
               r = next_jid t + 1 /\
               t' = mktable (<[k := mkjob p r s]> (jobs t)) r).
Proof.
  intros H. destruct (find_pid p (jobs t) 0) as [[i j]|] eqn:E.
  - rewrite (addjob_hit _ _ _ _ _ E) in H. inversion H; subst. left; eauto.
  - right. split; [done|]. unfold addjob in H.
    destruct (addjob_scan_Miss p (jobs t) 0 Indeterminate E)
      as [[Hm _] | (k & j & Hm & Hk & Hf & _)]; rewrite Hm in H; [done|].
    simpl in H. destruct (next_jid t =? INT_MAX); [done|].
    inversion H; subst. eauto 10.
Qed.

Lemma setjobstat_cases p s t :
  (exists i j, find_pid p (jobs t) 0 = Some (i, j) /\
               setjobstat p s t =
                 (jid j, mktable (<[i := set_st s j]> (jobs t)) (next_jid t)))
  \/
  (find_pid p (jobs t) 0 = None /\ setjobstat p s t = (-1, t)).
Proof.
  unfold setjobstat.
  destruct (find_pid p (jobs t) 0) as [[i j]|] eqn:E; [left | right]; eauto.
Qed.

(** [setjobstat] keeps the pid and the jid of every slot, and the jid
    counter: it allocates nothing. *)
Lemma setjobstat_keeps p s t :
  next_jid (setjobstat p s t).2 = next_jid t /\
  pid <$> jobs (setjobstat p s t).2 = pid <$> jobs t /\
  jid <$> jobs (setjobstat p s t).2 = jid <$> jobs t.
Proof.
  destruct (setjobstat_cases p s t) as [(i & j & E & ->) | [_ ->]]; [|done].
  simpl. apply find_pid_Some in E as (k & -> & Hk & _ & _). simpl.
  rewrite !list_fmap_insert. simpl.
  split_and!; [done | |]; apply list_insert_id; by rewrite list_lookup_fmap, Hk.
Qed.

End JobTable.

(** ** Registration *)

(** C10: when some slot already stores the pid, whatever its status,
    [addjob] updates the status of the first such slot in place and returns
    the jid stored there; the jid counter, and the pid and jid of the slot,
    are left as they were. *)
Theorem addjob_reuses_existing_slot (p : Z) (s : Status) (t : table)
    (k0 : nat) (j0 : job) :
  jobs t !! k0 = Some j0 -> pid j0 = p ->
  exists i j,
    jobs t !! i = Some j /\ pid j = p /\
    (forall i' j', (i' < i)%nat -> jobs t !! i' = Some j' -> pid j' <> p) /\
    addjob p s t =
      Done (jid j, mktable (<[i := mkjob p (jid j) s]> (jobs t)) (next_jid t)).
Proof.
  intros Hk0 Hp0.
  destruct (find_pid_present p t k0 j0 Hk0 Hp0) as (i & j & E).
  rewrite (addjob_hit _ s _ _ _ E).
  apply find_pid_Some in E as (k & -> & Hk & Hp & Hfirst).
  exists k, j. simpl. split_and!; try done.
  unfold set_st. by rewrite Hp.
Qed.

(** A process that gets the pid 5 of the finished job 1 is given jid 1
    again, and the counter stays at 1. *)
Lemma addjob_reuses_existing_slot_witness :
  jobs table_finished !! 99%nat = Some (mkjob 5 1 TERMINATED) /\
  exists i j,
    jobs table_finished !! i = Some j /\ pid j = 5 /\
    (forall i' j', (i' < i)%nat -> jobs table_finished !! i' = Some j' ->
                   pid j' <> 5) /\
    addjob 5 RUNNING table_finished =
      Done (jid j, mktable (<[i := mkjob 5 (jid j) RUNNING]> (jobs table_finished))
                           (next_jid table_finished)).
Proof.
  split; [reflexivity|].
  exact (addjob_reuses_existing_slot 5 RUNNING table_finished 99
           (mkjob 5 1 TERMINATED) eq_refl eq_refl).
Defined.

(** C2, at a full table: the hundred slots hold the running jobs with the
    pids 1 to 100, which a hundred calls of [addjob] build from the initial
    table; the call for pid 101 then uses the value of [free_job], which
    nothing has assigned, where a return of -1 is documented. *)
Theorem addjob_full_table_reads_uninitialised :
  run full_calls table0 = Done table_full /\
  length (jobs table_full) = MAXJOBS /\
  Forall (fun j => is_free (st j) = false /\ pid j <> 101) (jobs table_full) /\
  addjob 101 RUNNING table_full = Undefined UninitRead.
Proof.
  split_and!.
  - vm_compute. reflexivity.
  - vm_compute. reflexivity.
  - apply Forall_forall. intros j Hj.
    assert (Hb : forallb (fun j => negb (is_free (st j)) && negb (pid j =? 101))
                   (jobs table_full) = true) by (vm_compute; reflexivity).
    rewrite forallb_forall in Hb. apply list_elem_of_In in Hj.
    apply Hb in Hj. apply andb_true_iff in Hj as [H1 H2].
    apply negb_true_iff in H1, H2. apply Z.eqb_neq in H2. done.
  - vm_compute. reflexivity.
Qed.

(** ** The jids that [addjob] issues *)

Lemma findjob_None (p : Z) (t : table) :
  findjob p t = None <-> find_pid p (jobs t) 0 = None.
Proof. unfold findjob. by destruct (find_pid p (jobs t) 0). Qed.

(** A call never lowers the counter, and an allocating call returns the
    counter plus one and stores it. *)
Lemma step_next_jid (c : call) (t t' : table) (r : Z) :
  step c t = Done (r, t') ->
  next_jid t <= next_jid t' /\
  (allocates c t = true -> r = next_jid t + 1 /\ next_jid t' = r).
Proof.
  destruct c as [p s | p s]; simpl; intros H.
  - apply addjob_Done in H as [(i & j & E & -> & ->) | (E & k & j & _ & _ & -> & ->)];
      simpl.
    + split; [lia|]. intros Ha. apply bool_decide_eq_true, findjob_None in Ha.
      congruence.
    + split; [lia | done].
  - inversion H as [Heq]. destruct (setjobstat_keeps p s t) as [Hn _].
    rewrite Heq in Hn. simpl in Hn. split; [lia | done].
Qed.

Lemma issued_above (cs : list call) :
  forall t,
    StronglySorted Z.lt (issued cs t) /\ Forall (Z.lt (next_jid t)) (issued cs t).
Proof.
  induction cs as [|c cs IH]; simpl; intros t; [split; constructor|].
  destruct (step c t) as [[r t']|u] eqn:Hstep; [|split; constructor].
  destruct (IH t') as [Hsorted Habove].
  destruct (step_next_jid _ _ _ _ Hstep) as [Hle Halloc].
  assert (Habove' : Forall (Z.lt (next_jid t)) (issued cs t')).
  { eapply Forall_impl; [exact Habove|]. simpl. intros; lia. }
  destruct (allocates c t); [|done].
  destruct (Halloc eq_refl) as [-> Hr]. split.
  - constructor; [done|]. by rewrite Hr in Habove.
  - constructor; [lia | done].
Qed.

Lemma StronglySorted_lt_NoDup (js : list Z) :
  StronglySorted Z.lt js -> NoDup js.
Proof.
  induction 1 as [|j js _ IH Hall]; constructor; [|done].
  intros Hin. rewrite Forall_forall in Hall. specialize (Hall _ Hin). lia.
Qed.

(** C3: for every sequence of calls of [addjob] and [setjobstat], from any
    table, the jids returned by the allocating calls, for as long as the
    behaviour of the calls is defined, are strictly increasing, hence
    pairwise distinct, and above the counter the sequence started from,
    whichever slots the calls recycle. *)
Theorem issued_jids_strictly_increasing (cs : list call) (t : table) :
  StronglySorted Z.lt (issued cs t) /\ NoDup (issued cs t) /\
  Forall (Z.lt (next_jid t)) (issued cs t).
Proof.
  destruct (issued_above cs t) as [Hs Ha].
  split_and!; [done | by apply StronglySorted_lt_NoDup | done].
Qed.

(** Three jobs that use slot 99 one after the other get the jids 1, 2, 3;
    pid 5 comes back and is given a new jid. *)
Example issued_recycled_slot :
  issued [Addjob 5 RUNNING; Setjobstat 5 TERMINATED; Addjob 6 TERMINATED;
          Addjob 5 STOPPED] table0 = [1; 2; 3] /\
  run [Addjob 5 RUNNING; Setjobstat 5 TERMINATED; Addjob 6 TERMINATED;
       Addjob 5 STOPPED] table0 =
    Done (mktable (<[99%nat := mkjob 5 3 STOPPED]> (jobs table0)) 3).
Proof. split; reflexivity. Qed.

(** A hundred and one jobs: the last call is undefined, and the hundred
    jids issued before it are 1 to 100. *)
Example issued_full_table :
  issued (full_calls ++ [Addjob 101 RUNNING]) table0 =
    Z.of_nat <$> seq 1 100.
Proof. vm_compute. reflexivity. Qed.

(** ** One live slot for a pid *)

Lemma first_live_unique (t : table) : first_live t -> unique_live t.
Proof.
  intros H i i' j j' Hi Hi' Hl Hl' Hp.
  destruct (Nat.lt_trichotomy i i') as [Hlt | [-> | Hlt]]; [|done|].
  - rewrite (H _ _ _ _ Hlt Hi Hi' Hp) in Hl'. discriminate.
  - rewrite (H _ _ _ _ Hlt Hi' Hi (eq_sym Hp)) in Hl. discriminate.
Qed.

Lemma first_live_table0 : first_live table0.
Proof.
  intros i i' j j' _ _ Hi' _. unfold table0, jobs in Hi'.
  apply lookup_replicate in Hi' as [-> _]. reflexivity.
Qed.

(** Changing the status of the first slot that holds a pid. *)
Lemma first_live_set_st (p : Z) (s : Status) (t : table) (i : nat) (j : job)
    (n : Z) :
  find_pid p (jobs t) 0 = Some (i, j) -> first_live t ->
  first_live (mktable (<[i := set_st s j]> (jobs t)) n).
Proof.
  intros E Hinv a b ja jb Hlt Ha Hb Hp. simpl in Ha, Hb.
  apply find_pid_Some in E as (k & -> & Hk & Hpk & Hfirst). simpl in *.
  apply list_lookup_insert_Some in Ha as [(-> & <- & _) | [Hne Ha]];
    apply list_lookup_insert_Some in Hb as [(-> & <- & _) | [Hne' Hb]];
    simpl in *.
  - lia.
  - apply (Hinv _ _ _ _ Hlt Hk Hb Hp).
  - destruct (Hfirst _ _ Hlt Ha). congruence.
  - apply (Hinv _ _ _ _ Hlt Ha Hb Hp).
Qed.

(** Giving a free slot to a pid that no slot holds. *)
Lemma first_live_alloc (p r n : Z) (s : Status) (t : table) (k : nat) :
  find_pid p (jobs t) 0 = None -> first_live t ->
  first_live (mktable (<[k := mkjob p r s]> (jobs t)) n).
Proof.
  intros E Hinv a b ja jb Hlt Ha Hb Hp. simpl in Ha, Hb.
  pose proof (find_pid_None _ _ _ E) as Habsent.
  apply list_lookup_insert_Some in Ha as [(-> & <- & _) | [Hne Ha]];
    apply list_lookup_insert_Some in Hb as [(-> & <- & _) | [Hne' Hb]];
    simpl in *.
  - lia.
  - destruct (Habsent _ _ Hb). congruence.
  - destruct (Habsent _ _ Ha). congruence.
  - apply (Hinv _ _ _ _ Hlt Ha Hb Hp).
Qed.

Lemma step_first_live (c : call) (t t' : table) (r : Z) :
  step c t = Done (r, t') -> first_live t -> first_live t'.
Proof.
  destruct c as [p s | p s]; simpl; intros H Hinv.
  - apply addjob_Done in H as [(i & j & E & -> & ->) | (E & k & j & _ & _ & -> & ->)].
    + by eapply first_live_set_st.
    + by eapply first_live_alloc.
  - inversion H as [H']. clear H.
    destruct (setjobstat_cases p s t) as [(i & j & E & Heq) | [_ Heq]];
      rewrite Heq in H'; inversion H'; subst; [|done].
    by eapply first_live_set_st.
Qed.

Lemma tables_first_live (cs : list call) :
  forall t, first_live t -> Forall first_live (tables cs t).
Proof.
  induction cs as [|c cs IH]; simpl; intros t Hinv.
  - by repeat constructor.
  - constructor; [done|].
    destruct (step c t) as [[r t1]|u] eqn:Hstep; [|constructor].
    apply IH. by eapply step_first_live.
Qed.

(** The last table gone through is the one [run] returns. *)
Lemma run_last_table (cs : list call) :
  forall t t', run cs t = Done t' -> last (tables cs t) = Some t'.
Proof.
  induction cs as [|c cs IH]; simpl; intros t t' H.
  - by inversion H.
  - destruct (step c t) as [[r t1]|u]; [|done].
    specialize (IH _ _ H). destruct (tables cs t1); [done|]. exact IH.
Qed.

(** C4: in every table that calls of [addjob] and [setjobstat] go through
    when they start from the initial table, two slots that hold the same
    pid in a live status are the same slot. *)
Theorem one_live_slot_per_pid (cs : list call) :
  Forall unique_live (tables cs table0).
Proof.
  eapply Forall_impl; [apply tables_first_live, first_live_table0|].
  apply first_live_unique.
Qed.

(** Pid 5 is registered twice and pid 6 once: the two calls for pid 5 use
    one slot. *)
Example tables_reregistration :
  (fun t => live_jobs t) <$>
    tables [Addjob 5 RUNNING; Addjob 6 RUNNING; Addjob 5 STOPPED] table0 =
  [ [];
    [mkjob 5 1 RUNNING];
    [mkjob 6 2 RUNNING; mkjob 5 1 RUNNING];
    [mkjob 6 2 RUNNING; mkjob 5 1 STOPPED] ].
Proof. reflexivity. Qed.

(** ** Resolving a token *)

(** No status is both TERMINATED and UNINIT: the guard of [parse_pid]
    never holds. *)
Lemma parse_pid_guard_false (j : job) : parse_pid_guard j = false.
Proof. unfold parse_pid_guard. by destruct (st j). Qed.

(** So the scan for a pid looks at the pids only. *)
Lemma parse_pid_by_pid_spec (p : Z) (js : list job) :
  parse_pid_by_pid p js = if bool_decide (p ∈ pid <$> js) then p else -1.
Proof.
  induction js as [|j js IH]; simpl; [done|].
  rewrite parse_pid_guard_false.
  destruct (Z.eqb_spec (pid j) p) as [<- | Hne].
  - rewrite bool_decide_eq_true_2; [done | apply elem_of_cons; by left].
  - rewrite IH. fold (pid <$> js).
    destruct (decide (p ∈ pid <$> js)) as [Hin | Hout].
    + rewrite !bool_decide_eq_true_2; [done | | done].
      apply elem_of_cons. right. exact Hin.
    + rewrite !bool_decide_eq_false_2; [done | | done ].
      rewrite elem_of_cons. intros [Heq | Hin]; [by destruct Hne | by destruct Hout].
Qed.

(** And the scan for a jid returns the pid of the first slot with that jid,
    whatever the status of the slot. *)
Lemma parse_pid_by_jid_spec (n : Z) (js : list job) :
  parse_pid_by_jid n js =
    match list_find (fun j => jid j = n) js with
    | Some (_, j) => pid j
    | None => -1
    end.
Proof.
  induction js as [|j js IH]; simpl; [done|].
  rewrite parse_pid_guard_false.
  destruct (Z.eqb_spec (jid j) n) as [<- | Hne].
  - by rewrite decide_True.
  - rewrite decide_False by done. rewrite IH.
    by destruct (list_find (fun j => jid j = n) js) as [[i j']|].
Qed.

(** C1, at a finished job: pid 5 was registered as job 1 and then marked
    TERMINATED, and both its tokens still resolve to pid 5; [fg] then
    signals that pid where "No such process" is documented, and the shell
    exits when the signal cannot be delivered. *)
Theorem parse_pid_returns_terminated_pid :
  run finished_calls table0 = Done table_finished /\
  jobs table_finished !! 99%nat = Some (mkjob 5 1 TERMINATED) /\
  parse_pid "5" table_finished = 5 /\
  parse_pid "%1" table_finished = 5 /\
  eval (mkos 0 (-1) 0 0) ("fg %1" +:+ NL) (mkshell table_finished 0 [] []) =
    Exit (mkshell table_finished 0 [Stderr "Forward SIGCONT error"]
            [(5, SIGCONT)]).
Proof. split_and!; reflexivity. Qed.

(** ** Waiting for the foreground job *)

(** Entering [run_fg] when the wait has succeeded. *)
Ltac enter_run_fg o :=
  unfold run_fg, mbind, M_bind, set_fg_pid; simpl;
  destruct (Z.ltb_spec (os_wait o) 0) as [?|_]; [lia|].

Lemma WIFSTOPPED_low7 (status : Z) :
  WIFSTOPPED status = true -> Z.land status 127 = 127.
Proof.
  unfold WIFSTOPPED. intros H. apply Z.eqb_eq in H.
  change 127 with (Z.land 255 127) at 1.
  rewrite Z.land_assoc, H. reflexivity.
Qed.

Lemma WIFSTOPPED_not_signaled (status : Z) :
  WIFSTOPPED status = true -> WIFSIGNALED status = false.
Proof.
  intros H. unfold WIFSIGNALED. by rewrite (WIFSTOPPED_low7 _ H).
Qed.

Lemma WIFEXITED_not_signaled (status : Z) :
  WIFEXITED status = true -> WIFSIGNALED status = false.
Proof.
  unfold WIFEXITED, WTERMSIG, WIFSIGNALED. intros H.
  apply Z.eqb_eq in H. by rewrite H.
Qed.

Lemma WIFEXITED_not_stopped (status : Z) :
  WIFEXITED status = true -> WIFSTOPPED status = false.
Proof.
  intros H. destruct (WIFSTOPPED status) eqn:E; [|done].
  apply WIFSTOPPED_low7 in E. unfold WIFEXITED, WTERMSIG in H.
  apply Z.eqb_eq in H. congruence.
Qed.

(** Unless the job was stopped, [run_fg] returns with [fg_pid] still set
    to the pid it waited for. *)
Lemma run_fg_keeps_fg_pid (o : os) (p : Z) (s : shell) :
  0 <= os_wait o -> WIFSTOPPED (os_status o) = false ->
  exists s', run_fg o p s = Ret () s' /\ fg_pid s' = p.
Proof.
  intros Hw Hs. enter_run_fg o.
  rewrite Hs. destruct (WIFSIGNALED (os_status o)).
  - unfold setjobstat_m, mbind, M_bind, get_table, set_table. simpl.
    destruct (setjobstat p TERMINATED (tbl s)) as [j t']. simpl.
    unfold psignal, emit. eauto.
  - unfold mret, M_ret. eauto.
Qed.

(** C6, at a foreground job that exits: [run_fg] for pid 42 returns with
    [fg_pid] equal to 42 when the job exits normally and when a signal
    kills it; only a stop clears it.  The earlier version clears it in no
    case.  A later interrupt is then forwarded to pid 42, which is gone,
    and the shell exits. *)
Theorem run_fg_leaves_fg_pid_set :
  run_fg (mkos 0 0 42 (wstatus (Exited 0))) 42 shell0 =
    Ret () (mkshell table0 42 [] []) /\
  run_fg (mkos 0 0 42 (wstatus (Killed SIGINT false))) 42 shell0 =
    Ret () (mkshell table0 42
              [Psignal SIGINT "Job [-] 42 terminated by signal"] []) /\
  (exists s', run_fg (mkos 0 0 42 (wstatus (Stopped SIGTSTP))) 42 shell0 =
                Ret () s' /\ fg_pid s' = 0) /\
  (forall e, In e [Exited 0; Killed SIGINT false; Stopped SIGTSTP] ->
     exists s', Early.run_fg (mkos 0 0 42 (wstatus e)) 42 shell0 = Ret () s' /\
                fg_pid s' = 42) /\
  forward_signal (mkos 0 (-1) 0 0) SIGINT (mkshell table0 42 [] []) =
    Exit (mkshell table0 42
            [Stdout ("[ForwardSignalHandler] forwarding sig 2 to 42" +:+ NL);
             Stderr "Forward SIGINT|SIGTSTP error"]
            [(42, SIGINT)]).
Proof.
  split_and!; try reflexivity.
  - eexists. split; [lazy; reflexivity | reflexivity].
  - intros e [<- | [<- | [<- | []]]]; eexists;
      (split; [lazy; reflexivity | reflexivity]).
Qed.

(** ** The evaluator on lines without a target *)

(** C9: a line that [parseline] turns into the single token [fg], or the
    single token [bg], makes [eval] return with the state as it was:
    nothing printed, no signal sent, table and foreground pid unchanged.
    This holds in both versions of the shell, and whatever the operating
    system would have answered. *)
Theorem eval_fg_bg_without_argument (o : os) (s : shell) (cmdline : string)
    (bg : bool) :
  parseline cmdline = Done (["fg"], bg) \/
  parseline cmdline = Done (["bg"], bg) ->
  eval o cmdline s = Ret () s /\ Early.eval o cmdline s = Ret () s.
Proof.
  intros [H | H]; unfold eval, Early.eval, eval_with; rewrite H; split;
    reflexivity.
Qed.

Lemma eval_fg_bg_without_argument_witness :
  (parseline ("fg" +:+ NL) = Done (["fg"], false) \/
   parseline ("fg" +:+ NL) = Done (["bg"], false)) /\
  eval (mkos 9 0 9 0) ("fg" +:+ NL) (mkshell table_stopped 7 [] []) =
    Ret () (mkshell table_stopped 7 [] []) /\
  Early.eval (mkos 9 0 9 0) ("fg" +:+ NL) (mkshell table_stopped 7 [] []) =
    Ret () (mkshell table_stopped 7 [] []).
Proof.
  split; [left; reflexivity|].
  exact (eval_fg_bg_without_argument (mkos 9 0 9 0)
           (mkshell table_stopped 7 [] []) ("fg" +:+ NL) false
           (or_introl eq_refl)).
Defined.

(** ** The background flag *)

(** [parseline] returns whenever the buffer is not empty and holds fewer
    than MAXARGS tokens. *)
Lemma parseline_defined (buf : string) :
  buf <> "" -> (length (line_tokens buf) < MAXARGS)%nat ->
  exists argv bg, parseline buf = Done (argv, bg).
Proof.
  intros Hne Hlen. unfold parseline. destruct buf as [|c buf]; [done|].
  rewrite bool_decide_eq_false_2 by lia.
  destruct (last (line_tokens (String c buf))) as [tok|]; [|eauto].
  destruct (starts_with_amp tok); eauto.
Qed.

(** A line whose last token only starts with an ampersand is run in the
    background, and that token is dropped. *)
Lemma parseline_amp_prefix_counterexample :
  ~ bg_iff_final_token_is_amp ("ls &x" +:+ NL).
Proof.
  intros H.
  assert (E : parseline ("ls &x" +:+ NL) = Done (["ls"], true)) by reflexivity.
  apply H in E. destruct E as [E _]. specialize (E eq_refl).
  vm_compute in E. discriminate.
Qed.

(** C8, amended: when [parseline] returns, the flag is set exactly when the
    line has no token or its last token starts with an ampersand; the
    argument vector is then the tokens without the last one, and all the
    tokens otherwise.  A line with no token, and a line whose only token is
    an ampersand, make [eval] return with the state as it was. *)
Theorem parseline_bg_flag (buf : string) (argv : list string) (bg : bool) :
  parseline buf = Done (argv, bg) ->
  (bg = true <->
     line_tokens buf = [] \/
     exists tok, last (line_tokens buf) = Some tok /\ starts_with_amp tok = true) /\
  argv = (if bg then removelast (line_tokens buf) else line_tokens buf) /\
  (line_tokens buf = [] \/ line_tokens buf = ["&"] ->
   forall o s, eval o buf s = Ret () s).
Proof.
  intros H.
  assert (Hflag :
    (bg = true <->
       line_tokens buf = [] \/
       exists tok, last (line_tokens buf) = Some tok /\
                   starts_with_amp tok = true) /\
    argv = (if bg then removelast (line_tokens buf) else line_tokens buf)).
  { unfold parseline in H. destruct buf as [|c buf]; [done|].
    destruct (bool_decide _); [done|].
    destruct (last (line_tokens (String c buf))) as [tok|] eqn:El.
    - destruct (starts_with_amp tok) eqn:Ea; inversion H; subst; split; try done.
      + split; [eauto | done].
      + split; [done|]. intros [Hnil | (tok' & Htok & Ha)].
        * rewrite Hnil in El. discriminate.
        * congruence.
    - inversion H; subst. apply last_None in El. rewrite El.
      split; [split; eauto | done]. }
  destruct Hflag as [Hbg Hargv]. split_and!; [done | done |].
  intros Hlone o s. unfold eval, eval_with. rewrite H.
  assert (argv = []) as ->; [|done].
  rewrite Hargv. destruct Hlone as [Hnil | Hamp].
  - rewrite Hnil. by destruct bg.
  - assert (bg = true) as ->; [|by rewrite Hamp].
    apply Hbg. right. exists "&". by rewrite Hamp.
Qed.

Lemma parseline_bg_flag_witness :
  parseline ("&" +:+ NL) = Done ([], true) /\
  (true = true <->
     line_tokens ("&" +:+ NL) = [] \/
     exists tok, last (line_tokens ("&" +:+ NL)) = Some tok /\
                 starts_with_amp tok = true) /\
  [] = (if true then removelast (line_tokens ("&" +:+ NL))
        else line_tokens ("&" +:+ NL)) /\
  (line_tokens ("&" +:+ NL) = [] \/ line_tokens ("&" +:+ NL) = ["&"] ->
   forall o s, eval o ("&" +:+ NL) s = Ret () s).
Proof.
  split; [reflexivity|].
  exact (parseline_bg_flag ("&" +:+ NL) [] true eq_refl).
Defined.

(** ** A stop of the foreground job *)

(** Overwriting a slot that is not listed with a job that is listed adds
    one to the number of listed jobs. *)
Lemma live_jobs_insert (js : list job) (k : nat) (j x : job) :
  js !! k = Some j -> is_live (st j) = false -> is_live (st x) = true ->
  length (filter (fun j => is_live (st j) = true) (<[k := x]> js)) =
  S (length (filter (fun j => is_live (st j) = true) js)).
Proof.
  revert k. induction js as [|j' js IH]; intros k Hk Hj Hx; [done|].
  destruct k as [|k]; simpl in *.
  - inversion Hk; subst. rewrite !filter_cons.
    rewrite decide_True by done. rewrite decide_False by congruence. done.
  - rewrite !filter_cons. specialize (IH k Hk Hj Hx).
    destruct (decide (is_live (st j') = true)); simpl; by rewrite IH.
Qed.

(** A job that is resumed with [fg] and stopped again keeps its slot and
    its jid: the table lists one job before and after. *)
Lemma run_fg_stop_counterexample :
  ~ stop_adds_one_job (mkos 0 0 7 (wstatus (Stopped SIGTSTP))) 7
      (mkshell table_stopped 0 [] [(7, SIGCONT)]).
Proof.
  intros (s' & j & Hrun & Hlen & _).
  assert (E : run_fg (mkos 0 0 7 (wstatus (Stopped SIGTSTP))) 7
                (mkshell table_stopped 0 [] [(7, SIGCONT)]) =
              Ret () (mkshell table_stopped 0
                        [Psignal SIGTSTP "Job [1] 7 stopped by signal"]
                        [(7, SIGCONT)])) by reflexivity.
  rewrite E in Hrun. inversion Hrun; subst. vm_compute in Hlen. discriminate.
Qed.

(** C7, amended: let no slot store the pid, let some slot be free, and let
    the jid counter be below INT_MAX.  When the wait reports a stop, [run_fg]
    writes the pid, the next jid and STOPPED into a free slot and changes no
    other slot, so that one more job is listed; it prints one notice, which
    bears that jid, and clears [fg_pid].  When the wait reports a normal
    exit, the table is the same and nothing is printed. *)
Theorem run_fg_stop_registers (o : os) (p : Z) (s : shell) :
  0 <= os_wait o ->
  (WIFEXITED (os_status o) = true ->
   run_fg o p s = Ret () (mkshell (tbl s) p (out s) (kills s))) /\
  (WIFSTOPPED (os_status o) = true ->
   (forall k j, jobs (tbl s) !! k = Some j -> pid j <> p) ->
   (exists k j, jobs (tbl s) !! k = Some j /\ is_free (st j) = true) ->
   0 <= next_jid (tbl s) < INT_MAX ->
   exists k j,
     jobs (tbl s) !! k = Some j /\ is_free (st j) = true /\
     let r := next_jid (tbl s) + 1 in
     let t' := mktable (<[k := mkjob p r STOPPED]> (jobs (tbl s))) r in
     run_fg o p s =
       Ret () (mkshell t' 0
                 (out s ++ [Psignal (WSTOPSIG (os_status o)) (stopped_notice r p)])
                 (kills s)) /\
     length (live_jobs t') = S (length (live_jobs (tbl s)))).
Proof.
  intros Hw. split.
  - intros He. enter_run_fg o.
    by rewrite (WIFEXITED_not_signaled _ He), (WIFEXITED_not_stopped _ He).
  - intros Hs Habsent (k0 & j0 & Hk0 & Hf0) Hjid.
    assert (Hnone : find_pid p (jobs (tbl s)) 0 = None)
      by by apply find_pid_absent.
    assert (Hmax : next_jid (tbl s) <> INT_MAX) by lia.
    destruct (addjob_fresh p STOPPED (tbl s) k0 j0 Hnone Hk0 Hf0 Hmax)
      as (k & j & Hk & Hf & Hadd).
    exists k, j. split_and!; [done | done |]. cbv zeta. split.
    + enter_run_fg o.
      rewrite (WIFSTOPPED_not_signaled _ Hs), Hs.
      unfold addjob_m. simpl. rewrite Hadd.
      destruct (Z.ltb_spec (next_jid (tbl s) + 1) 0) as [?|_]; [lia|].
      reflexivity.
    + unfold live_jobs. simpl. apply (live_jobs_insert _ _ j); [done | | done].
      unfold is_live. by rewrite Hf.
Qed.

(** [sleep] is stopped in the foreground of a shell with an empty table,
    and [true] exits in it. *)
Lemma run_fg_stop_registers_witness :
  (run_fg (mkos 0 0 42 (wstatus (Exited 0))) 42 shell0 =
     Ret () (mkshell table0 42 [] [])) /\
  exists k j,
    jobs table0 !! k = Some j /\ is_free (st j) = true /\
    let t' := mktable (<[k := mkjob 42 1 STOPPED]> (jobs table0)) 1 in
    run_fg (mkos 0 0 42 (wstatus (Stopped SIGTSTP))) 42 shell0 =
      Ret () (mkshell t' 0
                [Psignal (WSTOPSIG (wstatus (Stopped SIGTSTP)))
                   (stopped_notice 1 42)] []) /\
    length (live_jobs t') = 1%nat.
Proof.
  split.
  - exact (proj1 (run_fg_stop_registers (mkos 0 0 42 (wstatus (Exited 0))) 42
                    shell0 ltac:(simpl; lia)) eq_refl).
  - apply (proj2 (run_fg_stop_registers
                    (mkos 0 0 42 (wstatus (Stopped SIGTSTP))) 42 shell0
                    ltac:(simpl; lia))).
    + reflexivity.
    + intros k j Hk. unfold shell0, table0, tbl, jobs in Hk.
      apply lookup_replicate in Hk as [-> _]. simpl. lia.
    + exists 0%nat, job0. split; reflexivity.
    + simpl. unfold INT_MAX. lia.
Defined.

(** ** The handler of SIGCHLD *)

(** With the three options set, [waitpid] reports whatever is oldest. *)
Lemma waitpid_any_reap (p status : Z) (q : pending) :
  waitpid_any reap_options ((p, status) :: q) = Reaped p status q.
Proof.
  simpl. unfold reported, reap_options. simpl.
  by destruct (WIFSTOPPED status), (WIFCONTINUED status).
Qed.

Lemma reap_child_nil (s : shell) : reap_child [] s = Ret [] s.
Proof. by simp reap_child. Qed.

Lemma reap_one_Ret (p status : Z) (s : shell) :
  reap_one p status s =
    Ret () (mkshell (setjobstat p (reap_status status) (tbl s)).2 (fg_pid s)
              (out s ++ [Stdout ("[ReapChildHandler] setjobstat " +:+ fmt_d p
                                 +:+ " to " +:+ jstatus_str (reap_status status)
                                 +:+ NL)])
              (kills s)).
Proof.
  unfold reap_one, setjobstat_m, mbind, M_bind, printf, emit, get_table. simpl.
  by destruct (setjobstat p (reap_status status) (tbl s)).
Qed.

Lemma reap_child_cons (p status : Z) (q : pending) (s : shell) :
  reap_child ((p, status) :: q) s =
    match reap_one p status s with
    | Ret _ s' => reap_child q s'
    | Exit s' => Exit s'
    | Child argv s' => Child argv s'
    | Hang => Hang
    | Undef u => Undef u
    end.
Proof.
  rewrite reap_child_equation_1.
  generalize (Logic.inspect (waitpid_any reap_options ((p, status) :: q))).
  intros [r Hr].
  assert (r = Reaped p status q) by (rewrite <- Hr; apply waitpid_any_reap).
  revert Hr. subst r. intros Hr. simpl.
  by destruct (reap_one p status s).
Qed.

(** A property that is checked on every integer of a range holds on the
    range. *)
Lemma forallb_range (f : Z -> bool) (lo : Z) (n : nat) :
  forallb f (map (fun k => lo + Z.of_nat k) (seq 0 n)) = true ->
  forall z, lo <= z < lo + Z.of_nat n -> f z = true.
Proof.
  intros H z Hz. rewrite forallb_forall in H. apply H.
  apply in_map_iff. exists (Z.to_nat (z - lo)). split; [lia|].
  apply in_seq. lia.
Qed.

(** [reap_child] reads the status word as the change of state that
    produced it. *)
Lemma reap_status_wstatus (e : child_event) :
  valid_event e = true -> reap_status (wstatus e) = status_of_event e.
Proof.
  destruct e as [code | sig core | sig |]; simpl; intros Hv; [| | |done];
    apply andb_true_iff in Hv as [H1 H2];
    apply Z.leb_le in H1; apply Z.leb_le in H2.
  - pose (f := fun c => bool_decide (reap_status (Z.shiftl c 8) = TERMINATED)).
    assert (H : f code = true)
      by (apply (forallb_range f 0 256); [vm_compute; reflexivity | lia]).
    by apply bool_decide_eq_true_1 in H.
  - pose (f := fun c => bool_decide (reap_status (Z.lor c 128) = TERMINATED)
                        && bool_decide (reap_status (Z.lor c 0) = TERMINATED)).
    assert (H : f sig = true)
      by (apply (forallb_range f 1 64); [vm_compute; reflexivity | lia]).
    apply andb_true_iff in H as [Hc Hn].
    apply bool_decide_eq_true_1 in Hc, Hn. by destruct core.
  - pose (f := fun c => bool_decide
                          (reap_status (Z.lor (Z.shiftl c 8) 127) = STOPPED)).
    assert (H : f sig = true)
      by (apply (forallb_range f 1 64); [vm_compute; reflexivity | lia]).
    by apply bool_decide_eq_true_1 in H.
Qed.

Lemma fold_setjobstat_keeps (es : list (Z * child_event)) (t : table) :
  let t' := fold_left
              (fun t pe => (setjobstat pe.1 (status_of_event pe.2) t).2) es t in
  next_jid t' = next_jid t /\
  pid <$> jobs t' = pid <$> jobs t /\
  jid <$> jobs t' = jid <$> jobs t.
Proof.
  revert t. induction es as [|[p e] es IH]; intros t; simpl; [done|].
  destruct (IH (setjobstat p (status_of_event e) t).2) as (-> & -> & ->).
  apply setjobstat_keeps.
Qed.

(** C5: whatever the children whose change of state is pending, and however
    many they are, one call of [reap_child] returns with none of them left
    pending; its wait carries WNOHANG, WUNTRACED and WCONTINUED, so that it
    never blocks and hands out stops and continues too.  The table it leaves
    is the one obtained by calling [setjobstat] for each change in turn,
    with TERMINATED for an exit or a fatal signal, STOPPED for a stop and
    RUNNING for a continue; hence the jid counter and the pid and jid of
    every slot are as before.  The foreground pid is untouched and no
    signal is sent. *)
Theorem reap_child_drains (es : list (Z * child_event)) (s : shell) :
  Forall (fun pe => valid_event pe.2 = true) es ->
  reap_options = mkopts true true true /\
  exists s',
    reap_child (pending_of es) s = Ret [] s' /\
    tbl s' =
      fold_left (fun t pe => (setjobstat pe.1 (status_of_event pe.2) t).2)
        es (tbl s) /\
    next_jid (tbl s') = next_jid (tbl s) /\
    pid <$> jobs (tbl s') = pid <$> jobs (tbl s) /\
    jid <$> jobs (tbl s') = jid <$> jobs (tbl s) /\
    fg_pid s' = fg_pid s /\ kills s' = kills s.
Proof.
  intros Hvalid. split; [done|].
  assert (Hrun : exists s',
    reap_child (pending_of es) s = Ret [] s' /\
    tbl s' =
      fold_left (fun t pe => (setjobstat pe.1 (status_of_event pe.2) t).2)
        es (tbl s) /\
    fg_pid s' = fg_pid s /\ kills s' = kills s).
  { revert s. induction Hvalid as [|[p e] es Hv _ IH]; intros s.
    - exists s. by rewrite reap_child_nil.
    - simpl in Hv. unfold pending_of. rewrite fmap_cons. simpl.
      rewrite reap_child_cons, reap_one_Ret, (reap_status_wstatus _ Hv).
      match goal with
      | |- context [reap_child _ ?s1] => destruct (IH s1) as (s' & Hr & Ht & Hf & Hk)
      end.
      exists s'. by split_and!. }
  destruct Hrun as (s' & Hr & Ht & Hf & Hk). exists s'.
  destruct (fold_setjobstat_keeps es (tbl s)) as (Hn & Hp & Hj).
  rewrite <- Ht in Hn, Hp, Hj. by split_and!.
Qed.

(** Four children change state before the handler runs: one exits, one is
    killed, one is stopped and one is continued. *)
Lemma reap_child_drains_witness :
  Forall (fun pe => valid_event pe.2 = true)
    [(5, Exited 0); (6, Killed SIGINT false); (7, Stopped SIGTSTP);
     (8, Continued)] /\
  reap_options = mkopts true true true /\
  exists s',
    reap_child (pending_of [(5, Exited 0); (6, Killed SIGINT false);
                            (7, Stopped SIGTSTP); (8, Continued)])
      (mkshell table_stopped 0 [] []) = Ret [] s' /\
    tbl s' =
      fold_left (fun t pe => (setjobstat pe.1 (status_of_event pe.2) t).2)
        [(5, Exited 0); (6, Killed SIGINT false); (7, Stopped SIGTSTP);
         (8, Continued)] (tbl (mkshell table_stopped 0 [] [])) /\
    next_jid (tbl s') = next_jid (tbl (mkshell table_stopped 0 [] [])) /\
    pid <$> jobs (tbl s') = pid <$> jobs (tbl (mkshell table_stopped 0 [] [])) /\
    jid <$> jobs (tbl s') = jid <$> jobs (tbl (mkshell table_stopped 0 [] [])) /\
    fg_pid s' = fg_pid (mkshell table_stopped 0 [] []) /\
    kills s' = kills (mkshell table_stopped 0 [] []).
Proof.
  assert (Hv : Forall (fun pe : Z * child_event => valid_event pe.2 = true)
                 [(5, Exited 0); (6, Killed SIGINT false); (7, Stopped SIGTSTP);
                  (8, Continued)])
    by (repeat constructor).
  split; [exact Hv|].
  exact (reap_child_drains _ (mkshell table_stopped 0 [] []) Hv).
Defined.

(** The handler of the earlier version collects nothing: the changes stay
    pending and the table is as it was. *)
Lemma early_reap_child_collects_nothing (q : pending) (s : shell) :
  exists s', Early.reap_child q s = Ret q s' /\ tbl s' = tbl s.
Proof. eexists. split; reflexivity. Qed.

(** * Further properties *)

(** ** Looking up what was registered *)

(** The converse of [find_pid_Some]. *)
Lemma find_pid_first (p : Z) (js : list job) (i0 k : nat) (j : job) :
  js !! k = Some j -> pid j = p ->
  (forall k' j', (k' < k)%nat -> js !! k' = Some j' -> pid j' <> p) ->
  find_pid p js i0 = Some ((i0 + k)%nat, j).
Proof.
  revert i0 k. induction js as [|j0 js IH]; intros i0 k Hk Hp Hfirst; [done|].
  destruct k as [|k]; simpl in *.
  - inversion Hk; subst. rewrite Z.eqb_refl. by rewrite Nat.add_0_r.
  - destruct (Z.eqb_spec (pid j0) p) as [Heq | _].
    + by destruct (Hfirst 0%nat j0 ltac:(lia) eq_refl).
    + rewrite (IH (S i0) k Hk Hp); [f_equal; f_equal; lia|].
      intros k' j' Hlt Hk'. apply (Hfirst (S k') j'); [lia | done].
Qed.

Lemma find_pid_bound (p : Z) (js : list job) (i0 i : nat) (j : job) :
  find_pid p js i0 = Some (i, j) -> (i0 <= i < i0 + length js)%nat.
Proof.
  intros H. apply find_pid_Some in H as (k & -> & Hk & _).
  apply lookup_lt_Some in Hk. lia.
Qed.

(** X1: once [addjob] has returned [r] for a pid, the first slot that holds
    the pid holds it with the jid [r] and the status that was given: the
    job can be found, and [setjobstat] and [findjob] act on that slot. *)
Theorem addjob_then_find (p r : Z) (s : Status) (t t' : table) :
  addjob p s t = Done (r, t') ->
  exists i, find_pid p (jobs t') 0 = Some (i, mkjob p r s) /\
            findjob p t' = Some i.
Proof.
  intros H.
  assert (Hfind : exists i, find_pid p (jobs t') 0 = Some (i, mkjob p r s)).
  { apply addjob_Done in H as [(i & j & E & -> & ->) | (E & k & j & Hk & _ & -> & ->)];
      simpl.
    - pose proof (find_pid_bound _ _ _ _ _ E) as Hb.
      apply find_pid_Some in E as (k & -> & Hk & Hp & Hfirst). simpl in *.
      exists k. rewrite <- Hp at 1.
      apply (find_pid_first _ _ 0 k).
      + rewrite list_lookup_insert_eq by lia. unfold set_st. by rewrite Hp.
      + done.
      + intros k' j' Hlt Hk'. rewrite list_lookup_insert_ne in Hk' by lia.
        rewrite Hp. by apply (Hfirst k').
    - exists k. apply (find_pid_first _ _ 0 k).
      + apply list_lookup_insert_eq. by apply lookup_lt_Some in Hk.
      + done.
      + intros k' j' Hlt Hk'. rewrite list_lookup_insert_ne in Hk' by lia.
        by apply (find_pid_None _ _ _ E k'). }
  destruct Hfind as [i Hi]. exists i. split; [done|].
  unfold findjob. by rewrite Hi.
Qed.

Lemma addjob_then_find_witness :
  addjob 5 STOPPED table_finished = Done (1, after [Addjob 5 STOPPED]) /\
  exists i, find_pid 5 (jobs (after [Addjob 5 STOPPED])) 0 =
              Some (i, mkjob 5 1 STOPPED) /\
            findjob 5 (after [Addjob 5 STOPPED]) = Some i.
Proof.
  split; [reflexivity|].
  exact (addjob_then_find 5 1 STOPPED table_finished (after [Addjob 5 STOPPED])
           eq_refl).
Defined.

(** X2: a call of [addjob] that returns leaves the table with as many slots
    as before, and with all slots but one as they were. *)
Theorem addjob_changes_one_slot (p r : Z) (s : Status) (t t' : table) :
  addjob p s t = Done (r, t') ->
  length (jobs t') = length (jobs t) /\
  exists i, forall k, k <> i -> jobs t' !! k = jobs t !! k.
Proof.
  intros H.
  apply addjob_Done in H as [(i & j & _ & _ & ->) | (_ & i & j & _ & _ & _ & ->)];
    simpl; (split; [apply length_insert|]); exists i; intros k Hne;
    by apply list_lookup_insert_ne.
Qed.

Lemma addjob_changes_one_slot_witness :
  addjob 6 RUNNING table_stopped =
    Done (2, after [Addjob 7 STOPPED; Addjob 6 RUNNING]) /\
  length (jobs (after [Addjob 7 STOPPED; Addjob 6 RUNNING])) =
    length (jobs table_stopped) /\
  exists i, forall k, k <> i ->
    jobs (after [Addjob 7 STOPPED; Addjob 6 RUNNING]) !! k =
    jobs table_stopped !! k.
Proof.
  split; [reflexivity|].
  exact (addjob_changes_one_slot 6 2 RUNNING table_stopped
           (after [Addjob 7 STOPPED; Addjob 6 RUNNING]) eq_refl).
Defined.

(** X3: when no slot holds the pid, [addjob] writes the new job into the
    free slot of greatest index: its loop keeps the last free slot it
    sees.  The job gets the counter plus one as its jid. *)
Theorem addjob_takes_last_free_slot (p r : Z) (s : Status) (t t' : table) :
  (forall k j, jobs t !! k = Some j -> pid j <> p) ->
  addjob p s t = Done (r, t') ->
  exists k j,
    jobs t !! k = Some j /\ is_free (st j) = true /\
    (forall k' j', (k < k')%nat -> jobs t !! k' = Some j' ->
                   is_free (st j') = false) /\
    r = next_jid t + 1 /\
    t' = mktable (<[k := mkjob p r s]> (jobs t)) r.
Proof.
  intros Habsent H.
  assert (E : find_pid p (jobs t) 0 = None) by by apply find_pid_absent.
  unfold addjob in H.
  destruct (addjob_scan_Miss p (jobs t) 0 Indeterminate E)
    as [[Hm _] | (k & j & Hm & Hk & Hf & Hlast)]; rewrite Hm in H; [done|].
  simpl in H. destruct (next_jid t =? INT_MAX); [done|].
  inversion H; subst. exists k, j. by split_and!.
Qed.

(** In the initial table every slot is free, and the first job goes to
    slot 99. *)
Lemma addjob_takes_last_free_slot_witness :
  (forall k j, jobs table0 !! k = Some j -> pid j <> 5) /\
  addjob 5 RUNNING table0 =
    Done (1, mktable (<[99%nat := mkjob 5 1 RUNNING]> (jobs table0)) 1) /\
  exists k j,
    jobs table0 !! k = Some j /\ is_free (st j) = true /\
    (forall k' j', (k < k')%nat -> jobs table0 !! k' = Some j' ->
                   is_free (st j') = false) /\
    1 = next_jid table0 + 1 /\
    mktable (<[99%nat := mkjob 5 1 RUNNING]> (jobs table0)) 1 =
      mktable (<[k := mkjob 5 1 RUNNING]> (jobs table0)) 1.
Proof.
  assert (Habsent : forall k j, jobs table0 !! k = Some j -> pid j <> 5).
  { intros k j Hk. unfold table0, jobs in Hk.
    apply lookup_replicate in Hk as [-> _]. simpl. lia. }
  split; [exact Habsent|]. split; [reflexivity|].
  exact (addjob_takes_last_free_slot 5 1 RUNNING table0 _ Habsent eq_refl).
Defined.

(** X4: registering a pid that a slot already holds is [setjobstat]: the
    same table, and the same jid returned. *)
Theorem addjob_is_setjobstat (p : Z) (s : Status) (t : table) (k : nat)
    (j : job) :
  jobs t !! k = Some j -> pid j = p ->
  addjob p s t = Done (setjobstat p s t).
Proof.
  intros Hk Hp. destruct (find_pid_present p t k j Hk Hp) as (i & j' & E).
  rewrite (addjob_hit _ s _ _ _ E). unfold setjobstat. by rewrite E.
Qed.

Lemma addjob_is_setjobstat_witness :
  jobs table_stopped !! 99%nat = Some (mkjob 7 1 STOPPED) /\
  addjob 7 RUNNING table_stopped = Done (setjobstat 7 RUNNING table_stopped).
Proof.
  split; [reflexivity|].
  exact (addjob_is_setjobstat 7 RUNNING table_stopped 99 (mkjob 7 1 STOPPED)
           eq_refl eq_refl).
Defined.

(** ** Setting a status *)

(** X5: for a pid that no slot holds, [setjobstat] returns -1 and leaves
    the table as it is, and [findjob] returns NULL. *)
Theorem setjobstat_untracked (p : Z) (s : Status) (t : table) :
  (forall k j, jobs t !! k = Some j -> pid j <> p) ->
  setjobstat p s t = (-1, t) /\ findjob p t = None.
Proof.
  intros H. apply (find_pid_absent p (jobs t) 0) in H.
  unfold setjobstat, findjob. by rewrite H.
Qed.

Lemma setjobstat_untracked_witness :
  (forall k j, jobs table_stopped !! k = Some j -> pid j <> 8) /\
  setjobstat 8 TERMINATED table_stopped = (-1, table_stopped) /\
  findjob 8 table_stopped = None.
Proof.
  assert (H : forall k j, jobs table_stopped !! k = Some j -> pid j <> 8).
  { apply find_pid_None with (i0 := 0%nat). reflexivity. }
  split; [exact H|].
  exact (setjobstat_untracked 8 TERMINATED table_stopped H).
Defined.

(** X6: of two calls of [setjobstat] for one pid the second decides: it
    returns the same jid and leaves the same table as it does alone.  In
    particular a call that is repeated changes nothing more, and the slot
    that [findjob] returns is the same before and after. *)
Theorem setjobstat_last_wins (p : Z) (s1 s2 : Status) (t : table) :
  setjobstat p s2 (setjobstat p s1 t).2 = setjobstat p s2 t /\
  findjob p (setjobstat p s1 t).2 = findjob p t.
Proof.
  destruct (setjobstat_cases p s1 t) as [(i & j & E & ->) | [_ ->]]; [|done].
  simpl. pose proof E as E'.
  apply find_pid_Some in E' as (k & -> & Hk & Hp & Hfirst). simpl in *.
  assert (E1 : find_pid p (<[k := set_st s1 j]> (jobs t)) 0 =
               Some (k, set_st s1 j)).
  { apply (find_pid_first _ _ 0 k).
    - apply list_lookup_insert_eq. by apply lookup_lt_Some in Hk.
    - done.
    - intros k' j' Hlt Hk'. rewrite list_lookup_insert_ne in Hk' by lia.
      by apply (Hfirst k'). }
  unfold setjobstat, findjob. simpl. rewrite E1, E. simpl.
  by rewrite list_insert_insert_eq.
Qed.

(** X7: in a table where only the first slot with a pid can be live, a pid
    that [setjobstat] marks TERMINATED is held by none of the slots that
    the built-in [jobs] lists. *)
Theorem terminated_job_not_listed (p : Z) (t : table) :
  first_live t ->
  Forall (fun j => pid j <> p) (live_jobs (setjobstat p TERMINATED t).2).
Proof.
  intros Hinv. apply Forall_forall. intros j Hj.
  unfold live_jobs in Hj. apply list_elem_of_filter in Hj as [Hlive Hin].
  apply list_elem_of_lookup in Hin as [i Hi]. intros Hp.
  destruct (setjobstat_cases p TERMINATED t) as [(k & j0 & E & Heq) | [E Heq]];
    rewrite Heq in Hi; simpl in Hi.
  - apply find_pid_Some in E as (k' & -> & Hk & Hpk & Hfirst). simpl in *.
    apply list_lookup_insert_Some in Hi as [(-> & <- & _) | [Hne Hi]].
    + done.
    + destruct (Nat.lt_trichotomy i k') as [Hlt | [-> | Hlt]]; [|done|].
      * by destruct (Hfirst _ _ Hlt Hi).
      * rewrite (Hinv _ _ _ _ Hlt Hk Hi) in Hlive by congruence. done.
  - by destruct (find_pid_None _ _ _ E _ _ Hi).
Qed.

Lemma terminated_job_not_listed_witness :
  first_live table_stopped /\
  Forall (fun j => pid j <> 7)
    (live_jobs (setjobstat 7 TERMINATED table_stopped).2).
Proof.
  assert (H : first_live table_stopped).
  { assert (Hall : Forall first_live (tables [Addjob 7 STOPPED] table0))
      by apply tables_first_live, first_live_table0.
    rewrite Forall_forall in Hall. apply Hall.
    apply list_elem_of_In. right. left. reflexivity. }
  split; [exact H|].
  exact (terminated_job_not_listed 7 table_stopped H).
Defined.

(** ** What holds of the table at every moment *)

Lemma table_inv_table0 : table_inv table0.
Proof.
  split.
  - reflexivity.
  - unfold INT_MAX. simpl. lia.
  - apply first_live_table0.
  - intros i j Hi. unfold table0, jobs in Hi.
    apply lookup_replicate in Hi as [-> _]. simpl. lia.
  - intros i i' j j' Hi _ _. unfold table0, jobs in Hi.
    apply lookup_replicate in Hi as [-> _]. simpl. lia.
Qed.

(** Changing the status of the first slot with a pid keeps the invariant. *)
Lemma table_inv_set_st (p : Z) (s : Status) (t : table) (i : nat) (j : job) :
  find_pid p (jobs t) 0 = Some (i, j) -> table_inv t ->
  table_inv (mktable (<[i := set_st s j]> (jobs t)) (next_jid t)).
Proof.
  intros E [Hlen Hcnt Hfl Hrange Huniq].
  pose proof E as E'. apply find_pid_Some in E' as (k & -> & Hk & _). simpl in Hk.
  assert (Hjid : forall a ja, <[(0 + k)%nat := set_st s j]> (jobs t) !! a = Some ja ->
                   exists ja', jobs t !! a = Some ja' /\ jid ja' = jid ja).
  { intros a ja Ha. simpl in Ha.
    apply list_lookup_insert_Some in Ha as [(-> & <- & _) | [_ Ha]]; eauto. }
  split; simpl.
  - by rewrite length_insert.
  - done.
  - by apply (first_live_set_st p).
  - intros a ja Ha. apply Hjid in Ha as (ja' & Ha' & <-). by apply (Hrange a).
  - intros a a' ja ja' Ha Ha' Heq Hnz.
    apply Hjid in Ha as (jb & Hb & Hjb). apply Hjid in Ha' as (jb' & Hb' & Hjb').
    apply (Huniq a a' jb jb' Hb Hb'); congruence.
Qed.

(** An allocation does not happen at INT_MAX. *)
Lemma addjob_alloc_below_max (p r : Z) (s : Status) (t t' : table) :
  find_pid p (jobs t) 0 = None -> addjob p s t = Done (r, t') ->
  next_jid t <> INT_MAX.
Proof.
  intros E H Hmax. unfold addjob in H.
  destruct (addjob_scan_Miss p (jobs t) 0 Indeterminate E)
    as [[Hm _] | (k & j & Hm & _)]; rewrite Hm in H; [done|].
  simpl in H. apply Z.eqb_eq in Hmax. by rewrite Hmax in H.
Qed.

Lemma step_table_inv (c : call) (t t' : table) (r : Z) :
  step c t = Done (r, t') -> table_inv t -> table_inv t'.
Proof.
  destruct c as [p s | p s]; simpl; intros H Hinv.
  - pose proof H as H0.
    apply addjob_Done in H as [(i & j & E & -> & ->) | (E & k & j & Hk & _ & -> & ->)].
    + by apply (table_inv_set_st p).
    + pose proof (addjob_alloc_below_max _ _ _ _ _ E H0) as Hmax.
      destruct Hinv as [Hlen Hcnt Hfl Hrange Huniq]. split; simpl.
      * by rewrite length_insert.
      * lia.
      * by apply first_live_alloc.
      * intros a ja Ha.
        apply list_lookup_insert_Some in Ha as [(-> & <- & _) | [_ Ha]]; simpl.
        -- lia.
        -- specialize (Hrange _ _ Ha). lia.
      * intros a a' ja ja' Ha Ha' Heq Hnz.
        apply list_lookup_insert_Some in Ha as [(-> & <- & _) | [Hne Ha]];
          apply list_lookup_insert_Some in Ha' as [(-> & <- & _) | [Hne' Ha']];
          simpl in *.
        -- done.
        -- specialize (Hrange _ _ Ha'). lia.
        -- specialize (Hrange _ _ Ha). lia.
        -- by apply (Huniq a a' ja ja').
  - inversion H as [H']. clear H.
    destruct (setjobstat_cases p s t) as [(i & j & E & Heq) | [_ Heq]];
      rewrite Heq in H'; inversion H'; subst; [|done].
    by apply (table_inv_set_st p).
Qed.

Lemma tables_table_inv (cs : list call) :
  forall t, table_inv t -> Forall table_inv (tables cs t).
Proof.
  induction cs as [|c cs IH]; simpl; intros t Hinv.
  - constructor; [done | constructor].
  - constructor; [done|].
    destruct (step c t) as [[r t1]|u] eqn:Hstep; [|constructor].
    apply IH. by eapply step_table_inv.
Qed.

(** X8: every table that calls of [addjob] and [setjobstat] go through
    from the initial table has MAXJOBS slots, a counter between 0 and
    INT_MAX, jids between 0 and the counter, and no jid other than 0 in two
    slots: a job id names one slot. *)
Theorem table_invariant (cs : list call) :
  Forall table_inv (tables cs table0).
Proof. apply tables_table_inv, table_inv_table0. Qed.

(** ** The sequence of the jids *)

(** A call that does not allocate leaves the counter as it is. *)
Lemma step_no_alloc (c : call) (t t' : table) (r : Z) :
  step c t = Done (r, t') -> allocates c t = false -> next_jid t' = next_jid t.
Proof.
  destruct c as [p s | p s]; simpl; intros H Ha.
  - apply addjob_Done in H as [(i & j & E & -> & ->) | (E & _)]; [done|].
    apply findjob_None in E. by rewrite bool_decide_eq_true_2 in Ha.
  - inversion H as [Heq]. destruct (setjobstat_keeps p s t) as [Hn _].
    by rewrite Heq in Hn.
Qed.

(** X9: the jids that allocating calls return are consecutive: the first
    is the counter plus one, the next the counter plus two, and so on; from
    the initial table they are 1, 2, 3, ... *)
Theorem issued_jids_consecutive (cs : list call) (t : table) :
  issued cs t =
    (fun k => next_jid t + Z.of_nat k) <$> seq 1 (length (issued cs t)).
Proof.
  revert t. induction cs as [|c cs IH]; simpl; intros t; [done|].
  destruct (step c t) as [[r t']|u] eqn:Hstep; [|done].
  destruct (allocates c t) eqn:Ha.
  - destruct (step_next_jid _ _ _ _ Hstep) as [_ Halloc].
    destruct (Halloc Ha) as [-> Hr]. cbn [length seq fmap list_fmap].
    f_equal.
    rewrite (IH t') at 1. rewrite Hr, <- (fmap_S_seq 1), <- list_fmap_compose.
    apply list_fmap_ext. intros _ k _. simpl. lia.
  - rewrite (IH t') at 1. by rewrite (step_no_alloc _ _ _ _ Hstep Ha).
Qed.

(** ** Reading back what [%d] prints *)

Lemma digit_val_pretty_N_char (d : N) :
  (d < 10)%N -> digit_val (pretty_N_char d) = Some (Z.of_N d).
Proof.
  intros H.
  assert (d = 0 \/ d = 1 \/ d = 2 \/ d = 3 \/ d = 4 \/ d = 5 \/ d = 6 \/
          d = 7 \/ d = 8 \/ d = 9)%N as Hd by lia.
  repeat (destruct Hd as [-> | Hd]; [reflexivity|]). by subst.
Qed.

(** The digit loop reads the digits that [pretty_N_go] writes in front of
    [s], and stops where [s] starts. *)
Lemma strtol_digits_pretty (x : N) :
  forall s, exists k : nat, forall acc,
    strtol_digits acc (pretty_N_go x s) =
    strtol_digits (acc * 10 ^ Z.of_nat k + Z.of_N x) s.
Proof.
  induction (N.lt_wf_0 x) as [x _ IH]. intros s.
  destruct (N.eq_0_gt_0_cases x) as [-> | Hpos].
  - exists 0%nat. intros acc. rewrite pretty_N_go_0. f_equal. simpl. lia.
  - rewrite pretty_N_go_step by done.
    destruct (IH (x `div` 10)%N (N.div_lt x 10 Hpos eq_refl)
                (String (pretty_N_char (x `mod` 10)) s)) as [k Hk].
    exists (S k). intros acc. rewrite Hk. simpl.
    rewrite digit_val_pretty_N_char by (apply N.mod_lt; done). f_equal.
    rewrite Nat2Z.inj_succ, Z.pow_succ_r by lia.
    rewrite (N.div_mod x 10) at 3 by done.
    rewrite N2Z.inj_add, N2Z.inj_mul. simpl Z.of_N. lia.
Qed.

(** A number that is not 0 is printed with a digit in front. *)
Lemma pretty_N_go_head (x : N) :
  forall s, (0 < x)%N ->
    exists d r, (d < 10)%N /\ pretty_N_go x s = String (pretty_N_char d) r.
Proof.
  induction (N.lt_wf_0 x) as [x _ IH]. intros s Hpos.
  rewrite pretty_N_go_step by done.
  destruct (N.eq_0_gt_0_cases (x `div` 10)) as [E | Hdiv].
  - rewrite E, pretty_N_go_0. exists (x `mod` 10)%N, s.
    split; [by apply N.mod_lt | done].
  - apply IH; [by apply N.div_lt | done].
Qed.

(** [strtol] on a string that starts with a digit: no blank to skip and
    no sign. *)
Lemma strtol_digit_head (d : N) (r : string) :
  (d < 10)%N ->
  strtol (String (pretty_N_char d) r) =
    let '(v, rest) := strtol_digits 0 (String (pretty_N_char d) r) in
    (clamp_long v, rest).
Proof.
  intros H.
  assert (d = 0 \/ d = 1 \/ d = 2 \/ d = 3 \/ d = 4 \/ d = 5 \/ d = 6 \/
          d = 7 \/ d = 8 \/ d = 9)%N as Hd by lia.
  repeat (destruct Hd as [-> | Hd]; [reflexivity|]). by subst.
Qed.

Lemma strtol_minus_digit_head (d : N) (r : string) :
  (d < 10)%N ->
  strtol (String "-" (String (pretty_N_char d) r)) =
    let '(v, rest) := strtol_digits 0 (String (pretty_N_char d) r) in
    (clamp_long (- v), rest).
Proof.
  intros H.
  assert (d = 0 \/ d = 1 \/ d = 2 \/ d = 3 \/ d = 4 \/ d = 5 \/ d = 6 \/
          d = 7 \/ d = 8 \/ d = 9)%N as Hd by lia.
  repeat (destruct Hd as [-> | Hd]; [reflexivity|]). by subst.
Qed.

Lemma strtol_pretty_pos (x : positive) :
  strtol (pretty (Z.pos x)) = (clamp_long (Z.pos x), "") /\
  strtol (pretty (Z.neg x)) = (clamp_long (Z.neg x), "").
Proof.
  unfold pretty, pretty_Z, pretty, pretty_positive, pretty, pretty_N.
  rewrite decide_False by done.
  destruct (pretty_N_go_head (N.pos x) "" eq_refl) as (d & r & Hd & Hhead).
  destruct (strtol_digits_pretty (N.pos x) "") as [k Hk].
  specialize (Hk 0). rewrite Hhead, Z.mul_0_l, Z.add_0_l in Hk.
  change (strtol_digits (Z.of_N (N.pos x)) "") with (Z.pos x, "") in Hk.
  split.
  - rewrite Hhead, (strtol_digit_head d r Hd). by rewrite Hk.
  - change ("-" +:+ pretty_N_go (N.pos x) "")
      with (String "-" (pretty_N_go (N.pos x) "")).
    rewrite Hhead, (strtol_minus_digit_head d r Hd). by rewrite Hk.
Qed.

Lemma parse_int_pretty (n : Z) :
  - INT_MAX - 1 <= n <= INT_MAX -> parse_int (fmt_d n) = n.
Proof.
  unfold INT_MAX. intros Hn. unfold parse_int, fmt_d.
  assert (Hs : strtol (pretty n) = (clamp_long n, "")).
  { destruct n as [|x|x]; [reflexivity | |]; apply strtol_pretty_pos. }
  rewrite Hs. unfold clamp_long, LONG_MIN, LONG_MAX, int_of_long.
  destruct (Z.ltb_spec n (-9223372036854775808)); [lia|].
  destruct (Z.ltb_spec 9223372036854775807 n); [lia|].
  rewrite Z.mod_small by lia. lia.
Qed.

(** X10: what the shell prints for an [int] with [%d], [parse_int] reads
    back as that [int]. *)
Theorem parse_int_fmt_d (n : Z) :
  - INT_MAX - 1 <= n <= INT_MAX -> parse_int (fmt_d n) = n.
Proof. apply parse_int_pretty. Qed.

Lemma parse_int_fmt_d_witness :
  - INT_MAX - 1 <= -2147483648 <= INT_MAX /\
  parse_int (fmt_d (-2147483648)) = -2147483648.
Proof.
  assert (H : - INT_MAX - 1 <= -2147483648 <= INT_MAX) by (unfold INT_MAX; lia).
  split; [exact H|].
  exact (parse_int_fmt_d (-2147483648) H).
Defined.

(** ** Strings that are not numbers *)

(** [strtol] with its test of the sign written as two comparisons. *)
Lemma strtol_unfold (str : string) :
  strtol str =
    let s1 := skip_isspace str in
    let '(neg, s2) :=
      match s1 with
      | String c r =>
          if Ascii.eqb c "-" then (true, r)
          else if Ascii.eqb c "+" then (false, r)
          else (false, s1)
      | EmptyString => (false, s1)
      end in
    match s2 with
    | String c _ =>
        match digit_val c with
        | Some _ =>
            let '(v, rest) := strtol_digits 0 s2 in
            (clamp_long (if neg then - v else v), rest)
        | None => (0, str)
        end
    | EmptyString => (0, str)
    end.
Proof.
  unfold strtol. destruct (skip_isspace str) as [|c r]; [done|].
  destruct c as [[] [] [] [] [] [] [] []]; reflexivity.
Qed.

Lemma skip_isspace_chars (s : string) :
  exists ws, chars s = (ws ++ chars (skip_isspace s))%list /\
             Forall (fun c => isspace c = true) ws.
Proof.
  induction s as [|c s (ws & Hws & Hall)]; simpl.
  - by exists [].
  - destruct (isspace c) eqn:E.
    + exists (c :: ws). simpl. rewrite Hws. split; [done | by constructor].
    + by exists [].
Qed.

Lemma strtol_digits_chars (s : string) :
  forall acc, exists ds,
    chars s = (ds ++ chars (strtol_digits acc s).2)%list /\
    Forall (fun c => digit_val c <> None) ds.
Proof.
  induction s as [|c s IH]; simpl; intros acc.
  - by exists [].
  - destruct (digit_val c) as [d|] eqn:E.
    + destruct (IH (10 * acc + d)) as (ds & Hds & Hall).
      exists (c :: ds). simpl. rewrite <- Hds. split; [done|].
      constructor; [congruence | done].
    + by exists [].
Qed.

(** X11: a string that holds a character which is no digit, no sign and no
    white space is not a number for [parse_int]: the result is -1. *)
Theorem parse_int_rejects (s : string) (c : ascii) :
  c ∈ chars s ->
  digit_val c = None -> isspace c = false -> c <> "-"%char -> c <> "+"%char ->
  parse_int s = -1.
Proof.
  intros Hin Hd Hsp Hminus Hplus.
  assert (Hend : exists a r, (strtol s).2 = String a r).
  { assert (Hs : exists a r, s = String a r).
    { destruct s; [by apply elem_of_nil in Hin | eauto]. }
    rewrite strtol_unfold. cbv zeta.
    destruct (skip_isspace_chars s) as (ws & Hws & Hall).
    rewrite Hws in Hin. apply elem_of_app in Hin as [Hin | Hin].
    { rewrite Forall_forall in Hall. specialize (Hall _ Hin). congruence. }
    destruct (skip_isspace s) as [|c1 r1]; [by apply elem_of_nil in Hin|].
    assert (Hrest : forall neg s2, c ∈ chars s2 ->
      exists a r,
        (match s2 with
         | String c0 _ =>
             match digit_val c0 with
             | Some _ =>
                 let '(v, rest) := strtol_digits 0 s2 in
                 (clamp_long (if neg : bool then - v else v), rest)
             | None => (0, s)
             end
         | EmptyString => (0, s)
         end).2 = String a r).
    { intros neg s2 Hin2. destruct s2 as [|c0 r0]; [by apply elem_of_nil in Hin2|].
      destruct (digit_val c0) eqn:E0; [|exact Hs].
      destruct (strtol_digits_chars (String c0 r0) 0) as (ds & Hds & Hdall).
      destruct (strtol_digits 0 (String c0 r0)) as [v rest]. simpl in *.
      rewrite Hds in Hin2. apply elem_of_app in Hin2 as [Hin2 | Hin2].
      - rewrite Forall_forall in Hdall. by destruct (Hdall _ Hin2).
      - destruct rest; [by apply elem_of_nil in Hin2 | eauto]. }
    simpl in Hin.
    destruct (Ascii.eqb_spec c1 "-") as [-> | _];
      [|destruct (Ascii.eqb_spec c1 "+") as [-> | _]].
    - apply (Hrest true r1).
      apply elem_of_cons in Hin as [-> | Hin]; done.
    - apply (Hrest false r1).
      apply elem_of_cons in Hin as [-> | Hin]; done.
    - by apply (Hrest false (String c1 r1)). }
  destruct Hend as (a & r & Hend). unfold parse_int.
  destruct (strtol s) as [v endptr]. simpl in Hend. by rewrite Hend.
Qed.

Lemma parse_int_rejects_witness :
  ("x"%char ∈ chars "12x") /\ parse_int "12x" = -1.
Proof.
  assert (H : "x"%char ∈ chars "12x")
    by (apply list_elem_of_In; right; right; left; reflexivity).
  split; [exact H|].
  apply (parse_int_rejects "12x" "x" H); [reflexivity | reflexivity | |];
    discriminate.
Defined.

(** ** What [parse_pid] returns *)

(** [parse_pid] with its test of the first character written as a
    comparison. *)
Lemma parse_pid_unfold (s : string) (t : table) :
  parse_pid s t =
    match s with
    | String c s' =>
        if Ascii.eqb c "%" then
          if parse_int s' <=? 0 then -1
          else parse_pid_by_jid (parse_int s') (jobs t)
        else parse_pid_by_pid (parse_int s) (jobs t)
    | EmptyString => parse_pid_by_pid (parse_int s) (jobs t)
    end.
Proof.
  unfold parse_pid. destruct s as [|c s']; [done|].
  destruct c as [[] [] [] [] [] [] [] []]; reflexivity.
Qed.

Lemma parse_pid_cases (s : string) (t : table) :
  parse_pid s t = -1 \/ exists j, j ∈ jobs t /\ pid j = parse_pid s t.
Proof.
  assert (Hpid : forall p,
    parse_pid_by_pid p (jobs t) = -1 \/
    exists j, j ∈ jobs t /\ pid j = parse_pid_by_pid p (jobs t)).
  { intros p. rewrite parse_pid_by_pid_spec. case_bool_decide as Hin; [|by left].
    right. apply list_elem_of_fmap in Hin as (j & -> & Hj). eauto. }
  assert (Hjid : forall n,
    parse_pid_by_jid n (jobs t) = -1 \/
    exists j, j ∈ jobs t /\ pid j = parse_pid_by_jid n (jobs t)).
  { intros n. rewrite parse_pid_by_jid_spec.
    destruct (list_find _ _) as [[i j]|] eqn:E; [|by left].
    right. apply list_find_Some in E as (Hi & _). exists j.
    split; [|done]. apply list_elem_of_lookup. eauto. }
  rewrite parse_pid_unfold. destruct s as [|c s']; [apply Hpid|].
  destruct (Ascii.eqb c "%"); [|apply Hpid].
  destruct (parse_int s' <=? 0); [by left | apply Hjid].
Qed.

(** X12: [parse_pid] returns -1 or the pid that some slot of the table
    holds, and nothing else. *)
Theorem parse_pid_only_stored (s : string) (t : table) :
  parse_pid s t = -1 \/ exists j, j ∈ jobs t /\ pid j = parse_pid s t.
Proof. apply parse_pid_cases. Qed.

(** The text of an [int] does not start with a percent sign. *)
Lemma parse_pid_fmt_d (n : Z) (t : table) :
  parse_pid (fmt_d n) t = parse_pid_by_pid (parse_int (fmt_d n)) (jobs t).
Proof.
  rewrite parse_pid_unfold. unfold fmt_d.
  destruct n as [|x|x]; [reflexivity | |].
  - unfold pretty, pretty_Z, pretty, pretty_positive, pretty, pretty_N.
    rewrite decide_False by done.
    destruct (pretty_N_go_head (N.pos x) "" eq_refl) as (d & r & Hd & ->).
    assert (d = 0 \/ d = 1 \/ d = 2 \/ d = 3 \/ d = 4 \/ d = 5 \/ d = 6 \/
            d = 7 \/ d = 8 \/ d = 9)%N as Hd' by lia.
    repeat (destruct Hd' as [-> | Hd']; [reflexivity|]). by subst.
  - reflexivity.
Qed.

(** X13: the text that the shell prints for a pid resolves to that pid
    when some slot holds it, whatever the status of the slot, and to -1
    when none does. *)
Theorem parse_pid_of_printed_pid (p : Z) (t : table) :
  - INT_MAX - 1 <= p <= INT_MAX ->
  parse_pid (fmt_d p) t = if bool_decide (p ∈ pid <$> jobs t) then p else -1.
Proof.
  intros Hp. by rewrite parse_pid_fmt_d, parse_int_pretty, parse_pid_by_pid_spec.
Qed.

Lemma parse_pid_of_printed_pid_witness :
  - INT_MAX - 1 <= 999999 <= INT_MAX /\
  parse_pid (fmt_d 999999) table_stopped =
    (if bool_decide (999999 ∈ pid <$> jobs table_stopped) then 999999 else -1) /\
  parse_pid "999999" table_stopped = -1.
Proof.
  assert (H : - INT_MAX - 1 <= 999999 <= INT_MAX) by (unfold INT_MAX; lia).
  split; [exact H|]. split; [|reflexivity].
  exact (parse_pid_of_printed_pid 999999 table_stopped H).
Defined.

(** X14: in a table that keeps the invariant, the text that the shell
    prints for the jid of a slot, after a percent sign, resolves to the pid
    of that slot, provided the jid is not 0. *)
Theorem parse_pid_of_printed_jid (t : table) (i : nat) (j : job) :
  table_inv t -> jobs t !! i = Some j -> jid j <> 0 ->
  parse_pid ("%" +:+ fmt_d (jid j)) t = pid j.
Proof.
  intros [_ Hcnt _ Hrange Huniq] Hi Hnz.
  pose proof (Hrange _ _ Hi) as Hr.
  change ("%" +:+ fmt_d (jid j)) with (String "%" (fmt_d (jid j))).
  rewrite parse_pid_unfold. simpl.
  rewrite parse_int_pretty by lia.
  destruct (Z.leb_spec (jid j) 0) as [?|_]; [lia|].
  rewrite parse_pid_by_jid_spec.
  destruct (list_find (fun j0 => jid j0 = jid j) (jobs t)) as [[i' j']|] eqn:E.
  - apply list_find_Some in E as (Hi' & Hjid & _).
    assert (i' = i) as -> by (apply (Huniq i' i j' j); congruence).
    congruence.
  - apply list_find_None in E. rewrite Forall_forall in E.
    destruct (E j); [|done]. apply list_elem_of_lookup. eauto.
Qed.

Lemma parse_pid_of_printed_jid_witness :
  table_inv table_stopped /\
  jobs table_stopped !! 99%nat = Some (mkjob 7 1 STOPPED) /\
  parse_pid ("%" +:+ fmt_d 1) table_stopped = 7.
Proof.
  assert (H : table_inv table_stopped).
  { assert (Hall : Forall table_inv (tables [Addjob 7 STOPPED] table0))
      by apply tables_table_inv, table_inv_table0.
    rewrite Forall_forall in Hall. apply Hall.
    apply list_elem_of_In. right. left. reflexivity. }
  split; [exact H|]. split; [reflexivity|].
  exact (parse_pid_of_printed_jid table_stopped 99 (mkjob 7 1 STOPPED) H eq_refl
           ltac:(discriminate)).
Defined.

(** ** The tokens of a line *)

Lemma split_args_step (buf : string) :
  split_args buf =
    match strchr buf SP with
    | Some (tok, rest) => tok :: split_args (skip_blanks rest)
    | None => []
    end.
Proof.
  rewrite split_args_equation_1.
  generalize (Logic.inspect (strchr buf SP)). intros [r Hr].
  destruct r as [[tok rest]|]; simpl; by rewrite Hr.
Qed.

(** What [strchr] splits: the part before the character does not hold
    it. *)
Lemma strchr_Some (s : string) (c : ascii) (tok rest : string) :
  strchr s c = Some (tok, rest) ->
  s = tok +:+ String c rest /\ c ∉ chars tok.
Proof.
  revert tok. induction s as [|a s IH]; simpl; intros tok H; [done|].
  destruct (Ascii.eqb_spec a c) as [-> | Hne].
  - inversion H; subst. split; [done | apply not_elem_of_nil].
  - destruct (strchr s c) as [[tok' rest']|]; [|done].
    inversion H; subst. destruct (IH tok' eq_refl) as [-> Hnot].
    split; [done|]. simpl. apply not_elem_of_cons. split; [congruence | done].
Qed.

Lemma strchr_app (tok rest : string) (c : ascii) :
  c ∉ chars tok -> strchr (tok +:+ String c rest) c = Some (tok, rest).
Proof.
  induction tok as [|a tok IH]; simpl; intros Hnot.
  - by rewrite Ascii.eqb_refl.
  - apply not_elem_of_cons in Hnot as [Hne Hnot].
    destruct (Ascii.eqb_spec a c) as [-> | _]; [done|]. by rewrite IH.
Qed.

Lemma skip_blanks_head (buf : string) : head_not_blank (skip_blanks buf).
Proof.
  induction buf as [|c buf IH]; simpl; [done|].
  by destruct (Ascii.eqb_spec c SP).
Qed.

Lemma skip_blanks_id (buf : string) :
  head_not_blank buf -> skip_blanks buf = buf.
Proof.
  destruct buf as [|c buf]; simpl; [done|].
  intros H. by destruct (Ascii.eqb_spec c SP).
Qed.

Lemma string_length_app (s1 s2 : string) :
  String.length (s1 +:+ s2) = (String.length s1 + String.length s2)%nat.
Proof. induction s1 as [|c s1 IH]; simpl; [done | by rewrite IH]. Qed.

Lemma split_args_tokens (n : nat) :
  forall buf, (String.length buf <= n)%nat -> head_not_blank buf ->
              Forall is_token (split_args buf).
Proof.
  induction n as [|n IH]; intros buf Hlen Hhead; rewrite split_args_step.
  - destruct buf; [constructor | simpl in Hlen; lia].
  - destruct (strchr buf SP) as [[tok rest]|] eqn:E; [|constructor].
    apply strchr_Some in E as [-> Hnot]. constructor.
    + split; [|done]. intros ->. simpl in Hhead. done.
    + apply IH; [|apply skip_blanks_head].
      assert (Hskip : forall s, (String.length (skip_blanks s) <= String.length s)%nat).
      { induction s as [|c s IHs]; simpl; [lia|].
        destruct (Ascii.eqb c SP); simpl; lia. }
      specialize (Hskip rest). rewrite string_length_app in Hlen. simpl in Hlen. lia.
Qed.

(** X15: the strings that [parseline] stores in [argv] are not empty and
    hold no blank, and when [parseline] returns there are fewer than
    MAXARGS of them: the NULL that ends [argv] fits in the array. *)
Theorem parseline_tokens (buf : string) (argv : list string) (bg : bool) :
  parseline buf = Done (argv, bg) ->
  Forall is_token argv /\ (length argv < MAXARGS)%nat.
Proof.
  intros H.
  assert (Htok : Forall is_token (line_tokens buf)).
  { apply (split_args_tokens _ _ (Nat.le_refl _)), skip_blanks_head. }
  unfold parseline in H. destruct buf as [|c buf]; [done|].
  case_bool_decide as Hlen; [done|].
  assert (Hrm : Forall is_token (removelast (line_tokens (String c buf))) /\
                (length (removelast (line_tokens (String c buf))) < MAXARGS)%nat).
  { split.
    - rewrite Forall_forall in Htok. apply Forall_forall. intros x Hx.
      apply Htok. apply list_elem_of_In. apply list_elem_of_In in Hx.
      revert Hx. generalize (line_tokens (String c buf)).
      induction l as [|a [|b l] IHl]; simpl; [done | done |].
      intros [-> | Hx]; [by left | right; by apply IHl].
    - assert (Hle : forall l : list string,
                (length (removelast l) <= length l)%nat).
      { induction l as [|a [|b l] IHl]; simpl in *; lia. }
      specialize (Hle (line_tokens (String c buf))). lia. }
  destruct (last (line_tokens (String c buf))) as [tok|].
  - destruct (starts_with_amp tok); inversion H; subst; [done|].
    split; [done | lia].
  - inversion H; subst. split; [constructor | unfold MAXARGS; simpl; lia].
Qed.

Lemma parseline_tokens_witness :
  parseline ("  ls   -l  /tmp &" +:+ NL) = Done (["ls"; "-l"; "/tmp"], true) /\
  Forall is_token ["ls"; "-l"; "/tmp"] /\
  (length ["ls"; "-l"; "/tmp"] < MAXARGS)%nat.
Proof.
  split; [reflexivity|].
  exact (parseline_tokens ("  ls   -l  /tmp &" +:+ NL) ["ls"; "-l"; "/tmp"] true
           eq_refl).
Defined.

Lemma unwords_head (toks : list string) :
  Forall is_token toks -> head_not_blank (unwords toks).
Proof.
  destruct 1 as [|tok toks [Hne Hnot] _]; simpl; [done|].
  destruct tok as [|c tok]; [done|]. simpl in *.
  apply not_elem_of_cons in Hnot as [Hc _]. congruence.
Qed.

Lemma split_args_unwords (toks : list string) :
  Forall is_token toks -> split_args (unwords toks) = toks.
Proof.
  induction 1 as [|tok toks [Hne Hnot] Hall IH]; rewrite split_args_step.
  - done.
  - simpl. change (tok +:+ " " +:+ unwords toks)
      with (tok +:+ String SP (unwords toks)).
    rewrite (strchr_app _ _ _ Hnot).
    by rewrite (skip_blanks_id _ (unwords_head _ Hall)), IH.
Qed.

Lemma blank_last_app (s1 s2 : string) :
  s2 <> "" -> blank_last (s1 +:+ s2) = s1 +:+ blank_last s2.
Proof.
  intros Hne. induction s1 as [|c s1 IH]; [done|].
  change (String c s1 +:+ s2) with (String c (s1 +:+ s2)).
  change (String c s1 +:+ blank_last s2) with (String c (s1 +:+ blank_last s2)).
  rewrite <- IH. destruct (s1 +:+ s2) eqn:E; [|reflexivity].
  destruct s1, s2; simpl in E; done.
Qed.

Lemma line_of_not_empty (toks : list string) : line_of toks <> "".
Proof.
  destruct toks as [|tok [|tok' toks]]; simpl; [done | |];
    by destruct tok.
Qed.

Lemma blank_last_line_of (toks : list string) :
  toks <> [] -> blank_last (line_of toks) = unwords toks.
Proof.
  induction toks as [|tok toks IH]; [done|]. intros _.
  destruct toks as [|tok' toks].
  - simpl. rewrite blank_last_app by done. reflexivity.
  - change (line_of (tok :: tok' :: toks))
      with (tok +:+ String SP (line_of (tok' :: toks))).
    rewrite blank_last_app by done.
    change (String SP (line_of (tok' :: toks)))
      with (String SP "" +:+ line_of (tok' :: toks)).
    rewrite (blank_last_app (String SP "")) by apply line_of_not_empty.
    rewrite IH by done. reflexivity.
Qed.

(** X16: a line written from tokens, with one blank between them and a
    newline at the end, is split by [parseline] into the same tokens; when
    there are between 1 and MAXARGS - 1 of them and the last does not start
    with an ampersand, [parseline] returns them all with the flag 0. *)
Theorem parseline_line_of (toks : list string) :
  Forall is_token toks ->
  line_tokens (line_of toks) = toks /\
  (forall tok, last toks = Some tok -> starts_with_amp tok = false ->
               (length toks < MAXARGS)%nat ->
               parseline (line_of toks) = Done (toks, false)).
Proof.
  intros Hall.
  assert (Htok : line_tokens (line_of toks) = toks).
  { unfold line_tokens. destruct toks as [|tok toks]; [reflexivity|].
    rewrite blank_last_line_of by done.
    by rewrite (skip_blanks_id _ (unwords_head _ Hall)), split_args_unwords. }
  split; [done|]. intros tok Hlast Hamp Hlen.
  unfold parseline. pose proof (line_of_not_empty toks) as Hne.
  destruct (line_of toks) eqn:E; [done|]. cbv zeta. rewrite Htok.
  rewrite bool_decide_eq_false_2 by lia. by rewrite Hlast, Hamp.
Qed.

Lemma parseline_line_of_witness :
  Forall is_token ["sleep"; "100"] /\
  line_tokens (line_of ["sleep"; "100"]) = ["sleep"; "100"] /\
  parseline (line_of ["sleep"; "100"]) = Done (["sleep"; "100"], false).
Proof.
  assert (H : Forall is_token ["sleep"; "100"]).
  { repeat constructor; try discriminate;
      intros Hin; apply list_elem_of_In in Hin; simpl in Hin;
      repeat (destruct Hin as [Hin | Hin]; [discriminate|]); done. }
  split; [exact H|].
  destruct (parseline_line_of ["sleep"; "100"] H) as [Ht Hp].
  split; [exact Ht|].
  exact (Hp "100" eq_refl eq_refl ltac:(unfold MAXARGS; simpl; lia)).
Defined.

(** ** The built-in [jobs] *)

Lemma print_jobs_lines (js : list job) :
  forall s,
    print_jobs js s =
      Ret () (mkshell (tbl s) (fg_pid s)
                (out s ++ ((fun j => Stdout (job_line j)) <$>
                           filter (fun j => is_live (st j) = true) js))
                (kills s)).
Proof.
  induction js as [|j js IH]; intros s.
  - simpl. unfold mret, M_ret. rewrite app_nil_r. by destruct s.
  - cbn [print_jobs]. unfold mbind, M_bind. rewrite filter_cons.
    destruct (st j) eqn:E; simpl; rewrite IH; [done | | | done]; simpl;
      rewrite <- app_assoc; unfold job_line; rewrite E; reflexivity.
Qed.

(** X17: the built-in [jobs] prints one line for each slot whose status is
    RUNNING or STOPPED, in the order of the slots, and nothing for the
    others; it changes nothing else and reports that the command was a
    built-in.  The earlier version prints the name of the command first. *)
Theorem jobs_lists_live_jobs (s : shell) :
  builtin_command "jobs" s =
    Ret true (mkshell (tbl s) (fg_pid s)
                (out s ++ ((fun j => Stdout (job_line j)) <$> live_jobs (tbl s)))
                (kills s)) /\
  Early.builtin_command "jobs" s =
    Ret true (mkshell (tbl s) (fg_pid s)
                (out s ++ Stdout ("argv[0] jobs" +:+ NL) ::
                   ((fun j => Stdout (job_line j)) <$> live_jobs (tbl s)))
                (kills s)).
Proof.
  split.
  - unfold builtin_command. simpl. unfold mbind, M_bind, get_table.
    by rewrite print_jobs_lines.
  - unfold Early.builtin_command. simpl. unfold mbind, M_bind, printf, emit.
    simpl. unfold mbind, M_bind, get_table. rewrite print_jobs_lines. simpl.
    by rewrite <- app_assoc.
Qed.

(** ** The evaluator *)

(** X18: [fg] or [bg] with a token that [parse_pid] does not resolve to a
    positive pid prints the token followed by ": No such process", and does
    nothing else: no signal is sent, and the table and the foreground pid
    are as before.  Both versions of the shell do so. *)
Theorem eval_no_such_process (o : os) (s : shell) (line cmd tok : string)
    (rest : list string) (bg : bool) :
  parseline line = Done (cmd :: tok :: rest, bg) ->
  cmd = "fg" \/ cmd = "bg" ->
  parse_pid tok (tbl s) <= 0 ->
  eval o line s =
    Ret () (mkshell (tbl s) (fg_pid s)
              (out s ++ [Stdout (tok +:+ ": No such process" +:+ NL)])
              (kills s)) /\
  Early.eval o line s =
    Ret () (mkshell (tbl s) (fg_pid s)
              (out s ++ [Stdout (tok +:+ ": No such process" +:+ NL)])
              (kills s)).
Proof.
  intros Hparse Hcmd Hpid.
  assert (Hres : forall msg run,
    resume msg o tok run s =
      Ret () (mkshell (tbl s) (fg_pid s)
                (out s ++ [Stdout (tok +:+ ": No such process" +:+ NL)])
                (kills s))).
  { intros msg run. unfold resume, mbind, M_bind, get_table. simpl.
    destruct (Z.ltb_spec 0 (parse_pid tok (tbl s))) as [?|_]; [lia|].
    reflexivity. }
  unfold eval, Early.eval, eval_with. rewrite Hparse.
  destruct Hcmd as [-> | ->]; simpl; split; apply Hres.
Qed.

(** The pid 999999 is not in the table. *)
Lemma eval_no_such_process_witness :
  parseline ("fg 999999" +:+ NL) = Done (["fg"; "999999"], false) /\
  parse_pid "999999" (tbl (mkshell table_stopped 0 [] [])) <= 0 /\
  eval (mkos 0 0 0 0) ("fg 999999" +:+ NL) (mkshell table_stopped 0 [] []) =
    Ret () (mkshell table_stopped 0
              [Stdout ("999999: No such process" +:+ NL)] []) /\
  Early.eval (mkos 0 0 0 0) ("fg 999999" +:+ NL)
      (mkshell table_stopped 0 [] []) =
    Ret () (mkshell table_stopped 0
              [Stdout ("999999: No such process" +:+ NL)] []).
Proof.
  assert (Hp : parse_pid "999999" (tbl (mkshell table_stopped 0 [] [])) <= 0)
    by (vm_compute; discriminate).
  split; [reflexivity|]. split; [exact Hp|].
  exact (eval_no_such_process (mkos 0 0 0 0) (mkshell table_stopped 0 [] [])
           ("fg 999999" +:+ NL) "fg" "999999" [] false eq_refl
           (or_introl eq_refl) Hp).
Defined.

(** X19: a line that ends in an ampersand and names no built-in starts a
    background job.  When [fork] returns to the shell a pid that no slot
    holds, some slot is free and the counter is in its range, [eval]
    writes the pid, the next jid and RUNNING into a free slot, sets
    [fg_pid] to 0, prints the jid, the pid and the line, and returns
    without waiting and without sending a signal. *)
Theorem eval_background_launch (o : os) (s : shell) (line cmd : string)
    (args : list string) :
  parseline line = Done (cmd :: args, true) ->
  cmd ∉ ["&"; "fg"; "bg"; "quit"; "jobs"] ->
  0 < os_fork o ->
  (forall k j, jobs (tbl s) !! k = Some j -> pid j <> os_fork o) ->
  (exists k j, jobs (tbl s) !! k = Some j /\ is_free (st j) = true) ->
  0 <= next_jid (tbl s) < INT_MAX ->
  exists k j,
    jobs (tbl s) !! k = Some j /\ is_free (st j) = true /\
    let r := next_jid (tbl s) + 1 in
    eval o line s =
      Ret () (mkshell
                (mktable (<[k := mkjob (os_fork o) r RUNNING]> (jobs (tbl s))) r)
                0
                (out s ++ [Stdout ("[" +:+ fmt_d r +:+ "] " +:+ fmt_d (os_fork o)
                                   +:+ " " +:+ line +:+ NL)])
                (kills s)).
Proof.
  intros Hparse Hcmd Hfork Habsent (k0 & j0 & Hk0 & Hf0) Hjid.
  assert (Hnone : find_pid (os_fork o) (jobs (tbl s)) 0 = None)
    by by apply find_pid_absent.
  assert (Hmax : next_jid (tbl s) <> INT_MAX) by lia.
  destruct (addjob_fresh (os_fork o) RUNNING (tbl s) k0 j0 Hnone Hk0 Hf0 Hmax)
    as (k & j & Hk & Hf & Hadd).
  exists k, j. split_and!; [done | done |]. cbv zeta.
  unfold eval, eval_with. rewrite Hparse.
  repeat (apply not_elem_of_cons in Hcmd as [? Hcmd]).
  rewrite !bool_decide_eq_false_2 by done.
  unfold mbind at 1, M_bind at 1, builtin_command.
  rewrite !bool_decide_eq_false_2 by done.
  unfold mret, M_ret.
  destruct (Z.ltb_spec (os_fork o) 0) as [?|_]; [lia|].
  destruct (Z.eqb_spec (os_fork o) 0) as [?|_]; [lia|].
  unfold run_bg, mbind, M_bind, set_fg_pid, addjob_m. simpl. rewrite Hadd.
  destruct (Z.ltb_spec (next_jid (tbl s) + 1) 0) as [?|_]; [lia|].
  reflexivity.
Qed.

Lemma eval_background_launch_witness :
  parseline ("sleep 100 &" +:+ NL) = Done (["sleep"; "100"], true) /\
  exists k j,
    jobs (tbl shell0) !! k = Some j /\ is_free (st j) = true /\
    eval (mkos 4242 0 0 0) ("sleep 100 &" +:+ NL) shell0 =
      Ret () (mkshell
                (mktable (<[k := mkjob 4242 1 RUNNING]> (jobs (tbl shell0))) 1)
                0
                [Stdout ("[1] 4242 sleep 100 &" +:+ NL +:+ NL)] []).
Proof.
  split; [reflexivity|].
  apply (eval_background_launch (mkos 4242 0 0 0) shell0
           ("sleep 100 &" +:+ NL) "sleep" ["100"] eq_refl).
  - intros Hin. apply list_elem_of_In in Hin. simpl in Hin.
    repeat (destruct Hin as [Hin | Hin]; [discriminate|]). done.
  - simpl. lia.
  - intros k j Hk. unfold shell0, table0, tbl, jobs in Hk.
    apply lookup_replicate in Hk as [-> _]. simpl. lia.
  - exists 0%nat, job0. split; reflexivity.
  - simpl. unfold INT_MAX. lia.
Defined.

(** X20: [bg] with a token that resolves to a positive pid sends SIGCONT to
    that pid and, when the signal is delivered, marks the first slot that
    holds the pid RUNNING: the slot keeps its pid and its jid, no slot is
    allocated, [fg_pid] becomes 0 and the jid and the pid are printed.
    The jids of the table are taken not to be negative, as they are in
    every table the shell builds. *)
Theorem eval_bg_resumes (o : os) (s : shell) (line tok : string)
    (rest : list string) (bg : bool) :
  parseline line = Done ("bg" :: tok :: rest, bg) ->
  0 < parse_pid tok (tbl s) ->
  0 <= os_kill o ->
  (forall k j, jobs (tbl s) !! k = Some j -> 0 <= jid j) ->
  exists i j,
    find_pid (parse_pid tok (tbl s)) (jobs (tbl s)) 0 = Some (i, j) /\
    eval o line s =
      Ret () (mkshell
                (mktable (<[i := set_st RUNNING j]> (jobs (tbl s)))
                         (next_jid (tbl s)))
                0
                (out s ++ [Stdout ("[" +:+ fmt_d (jid j) +:+ "] "
                                   +:+ fmt_d (parse_pid tok (tbl s))
                                   +:+ " " +:+ "" +:+ NL)])
                (kills s ++ [(parse_pid tok (tbl s), SIGCONT)])).
Proof.
  intros Hparse Hpid Hkill Hjids.
  destruct (parse_pid_cases tok (tbl s)) as [? | (j0 & Hin & Hp)]; [lia|].
  apply list_elem_of_lookup in Hin as [k0 Hk0].
  destruct (find_pid_present _ _ _ _ Hk0 Hp) as (i & j & E).
  exists i, j. split; [done|].
  unfold eval, eval_with. rewrite Hparse. simpl.
  unfold resume, mbind, M_bind, get_table. simpl.
  destruct (Z.ltb_spec 0 (parse_pid tok (tbl s))) as [_|?]; [|lia].
  unfold kill. simpl.
  destruct (Z.ltb_spec (os_kill o) 0) as [?|_]; [lia|].
  unfold run_bg, mbind, M_bind, set_fg_pid, addjob_m. simpl.
  rewrite (addjob_hit _ RUNNING _ _ _ E).
  apply find_pid_Some in E as (k & _ & Hk & _).
  destruct (Z.ltb_spec (jid j) 0) as [?|_]; [|reflexivity].
  specialize (Hjids _ _ Hk). lia.
Qed.

Lemma eval_bg_resumes_witness :
  parseline ("bg %1" +:+ NL) = Done (["bg"; "%1"], false) /\
  exists i j,
    find_pid (parse_pid "%1" table_stopped) (jobs table_stopped) 0 =
      Some (i, j) /\
    eval (mkos 0 0 0 0) ("bg %1" +:+ NL) (mkshell table_stopped 0 [] []) =
      Ret () (mkshell
                (mktable (<[i := set_st RUNNING j]> (jobs table_stopped))
                         (next_jid table_stopped))
                0
                [Stdout ("[" +:+ fmt_d (jid j) +:+ "] "
                         +:+ fmt_d (parse_pid "%1" table_stopped)
                         +:+ " " +:+ "" +:+ NL)]
                [(parse_pid "%1" table_stopped, SIGCONT)]).
Proof.
  split; [reflexivity|].
  apply (eval_bg_resumes (mkos 0 0 0 0) (mkshell table_stopped 0 [] [])
           ("bg %1" +:+ NL) "%1" [] false eq_refl).
  - vm_compute. reflexivity.
  - simpl. lia.
  - intros k j Hk.
    assert (Hb : forallb (fun j => 0 <=? jid j) (jobs table_stopped) = true)
      by (vm_compute; reflexivity).
    rewrite forallb_forall in Hb. apply Z.leb_le, Hb.
    apply list_elem_of_In, list_elem_of_lookup. eauto.
Defined.

(** ** The invariant through the shell *)

Lemma keeps_inv_bind {A B} (m : M A) (f : A -> M B) :
  keeps_inv m -> (forall a, keeps_inv (f a)) -> keeps_inv (m ≫= f).
Proof.
  intros Hm Hf s Hs. specialize (Hm s Hs). unfold mbind, M_bind.
  destruct (m s) as [a s' | s' | argv s' | | u]; simpl in *; try done.
  by apply Hf.
Qed.

(** A computation that leaves the table as it finds it. *)
Lemma keeps_inv_same_table {A} (m : M A) :
  (forall s, match final_table (m s) with
             | Some t' => t' = tbl s
             | None => True
             end) ->
  keeps_inv m.
Proof.
  intros H s Hs. specialize (H s).
  destruct (final_table (m s)); [by subst | done].
Qed.

Lemma keeps_inv_emit (o : output) : keeps_inv (emit o).
Proof. by apply keeps_inv_same_table. Qed.

Lemma keeps_inv_set_fg_pid (p : Z) : keeps_inv (set_fg_pid p).
Proof. by apply keeps_inv_same_table. Qed.

Lemma keeps_inv_ret {A} (a : A) : keeps_inv (mret a : M A).
Proof. by apply keeps_inv_same_table. Qed.

Lemma keeps_inv_exit0 {A} : keeps_inv (exit0 : M A).
Proof. by apply keeps_inv_same_table. Qed.

Lemma keeps_inv_unix_error {A} (msg : string) : keeps_inv (unix_error msg : M A).
Proof. by apply keeps_inv_same_table. Qed.

Lemma keeps_inv_kill (o : os) (p sig : Z) : keeps_inv (kill o p sig).
Proof. by apply keeps_inv_same_table. Qed.

Lemma keeps_inv_addjob_m (p : Z) (st : Status) : keeps_inv (addjob_m p st).
Proof.
  intros s Hs. unfold addjob_m.
  destruct (addjob p st (tbl s)) as [[r t']|u] eqn:E; simpl; [|done].
  by apply (step_table_inv (Addjob p st) (tbl s) t' r).
Qed.

Lemma keeps_inv_setjobstat_m (p : Z) (st : Status) :
  keeps_inv (setjobstat_m p st).
Proof.
  intros s Hs. unfold setjobstat_m, mbind, M_bind, get_table.
  destruct (setjobstat p st (tbl s)) as [r t'] eqn:E. simpl.
  apply (step_table_inv (Setjobstat p st) (tbl s) t' r); [|done].
  simpl. by rewrite E.
Qed.

Create HintDb keeps.

#[local] Hint Resolve keeps_inv_emit keeps_inv_set_fg_pid keeps_inv_ret
  keeps_inv_exit0 keeps_inv_unix_error keeps_inv_kill keeps_inv_addjob_m
  keeps_inv_setjobstat_m : keeps.

(** Going through a computation bind by bind. *)
Ltac keeps :=
  repeat first
    [ solve [auto with keeps]
    | apply keeps_inv_bind; [|intros ?]
    | progress (unfold printf, psignal)
    | progress (cbv beta zeta)
    | match goal with
      | |- keeps_inv (if ?b then _ else _) => destruct b
      | |- keeps_inv (let _ := _ in _) => cbv zeta
      end ].

Lemma keeps_inv_run_fg (o : os) (p : Z) : keeps_inv (run_fg o p).
Proof. unfold run_fg. keeps. Qed.

Lemma keeps_inv_early_run_fg (o : os) (p : Z) : keeps_inv (Early.run_fg o p).
Proof. unfold Early.run_fg. keeps. Qed.

Lemma keeps_inv_run_bg (p : Z) (cmd : string) : keeps_inv (run_bg p cmd).
Proof. unfold run_bg. keeps. Qed.

Lemma keeps_inv_print_jobs (js : list job) : keeps_inv (print_jobs js).
Proof.
  apply keeps_inv_same_table. intros s. by rewrite print_jobs_lines.
Qed.

Lemma keeps_inv_get_table : keeps_inv get_table.
Proof. by apply keeps_inv_same_table. Qed.

Lemma keeps_inv_get_fg_pid : keeps_inv get_fg_pid.
Proof. by apply keeps_inv_same_table. Qed.

#[local] Hint Resolve keeps_inv_run_fg keeps_inv_early_run_fg keeps_inv_run_bg
  keeps_inv_print_jobs keeps_inv_get_table keeps_inv_get_fg_pid : keeps.

Lemma keeps_inv_builtin_command (cmd : string) :
  keeps_inv (builtin_command cmd) /\ keeps_inv (Early.builtin_command cmd).
Proof. split; unfold builtin_command, Early.builtin_command; keeps. Qed.

Lemma keeps_inv_eval_with (run : os -> Z -> M unit) (builtin : string -> M bool)
    (msg : string) (o : os) (line : string) :
  (forall o p, keeps_inv (run o p)) -> (forall cmd, keeps_inv (builtin cmd)) ->
  keeps_inv (eval_with run builtin msg o line).
Proof.
  intros Hrun Hbuiltin. unfold eval_with.
  destruct (parseline line) as [[argv bg]|u]; [|by intros s Hs].
  destruct argv as [|cmd args] eqn:Hargv; [keeps|].
  assert (Hres : forall tok r, (forall p, keeps_inv (r p)) ->
                               keeps_inv (resume msg o tok r)).
  { intros tok r Hr. unfold resume. keeps. }
  assert (Hchild : keeps_inv (Child argv : M unit))
    by by apply keeps_inv_same_table.
  repeat case_bool_decide; try destruct args; keeps.
Qed.

Lemma keeps_inv_forward_signal (o : os) (sig : Z) :
  keeps_inv (forward_signal o sig) /\ keeps_inv (Early.forward_signal o sig).
Proof. split; unfold forward_signal, Early.forward_signal; keeps. Qed.

Lemma keeps_inv_reap_child (q : pending) : keeps_inv (reap_child q).
Proof.
  induction q as [|[p status] q IH]; intros s Hs.
  - by rewrite reap_child_nil.
  - rewrite reap_child_cons, reap_one_Ret. apply IH. simpl.
    apply (step_table_inv (Setjobstat p (reap_status status)) (tbl s) _
             (setjobstat p (reap_status status) (tbl s)).1); [|done].
    simpl. by destruct (setjobstat p (reap_status status) (tbl s)).
Qed.

Lemma keeps_inv_handle_all (arrivals : list arrival) :
  keeps_inv (handle_all arrivals).
Proof.
  induction arrivals as [|a arrivals IH]; simpl; [keeps|].
  apply keeps_inv_bind; [|done].
  destruct a as [o sig | q]; simpl.
  - apply keeps_inv_forward_signal.
  - apply keeps_inv_bind; [apply keeps_inv_reap_child | intros; keeps].
Qed.

Lemma keeps_inv_eval (o : os) (line : string) :
  keeps_inv (eval o line) /\ keeps_inv (Early.eval o line).
Proof.
  split; apply keeps_inv_eval_with; intros; try apply keeps_inv_builtin_command;
    keeps.
Qed.

Lemma keeps_inv_main_loop (turns : list turn) (last_arrivals : list arrival) :
  keeps_inv (main_loop turns last_arrivals).
Proof.
  induction turns as [|t turns IH]; simpl.
  - pose proof (keeps_inv_handle_all last_arrivals). keeps.
  - pose proof (keeps_inv_handle_all (arrivals t)).
    pose proof (proj1 (keeps_inv_eval (answers t) (cmdline t))). keeps.
Qed.

Lemma table_inv_unique_live (t : table) : table_inv t -> unique_live t.
Proof. intros [_ _ Hfl _ _]. by apply first_live_unique. Qed.

(** X21: [eval], in both versions of the shell, whatever the line and
    whatever the operating system answers, leaves a table that keeps the
    invariant when it was given one: MAXJOBS slots, a counter between 0
    and INT_MAX, jids between 0 and the counter, a jid other than 0 in one
    slot only, and at most one live slot for a pid.  This holds when [eval]
    returns, when it makes the shell exit, and in the child after
    [fork]. *)
Theorem eval_keeps_table_invariant (o : os) (line : string) (s : shell) :
  table_inv (tbl s) ->
  match final_table (eval o line s) with
  | Some t' => table_inv t' /\ unique_live t'
  | None => True
  end /\
  match final_table (Early.eval o line s) with
  | Some t' => table_inv t' /\ unique_live t'
  | None => True
  end.
Proof.
  intros Hs. destruct (keeps_inv_eval o line) as [H1 H2].
  specialize (H1 s Hs). specialize (H2 s Hs).
  split.
  - destruct (final_table (eval o line s)); [|done].
    split; [done | by apply table_inv_unique_live].
  - destruct (final_table (Early.eval o line s)); [|done].
    split; [done | by apply table_inv_unique_live].
Qed.

Lemma eval_keeps_table_invariant_witness :
  table_inv (tbl shell0) /\
  match final_table (eval (mkos 4242 0 0 0) ("sleep 100 &" +:+ NL) shell0) with
  | Some t' => table_inv t' /\ unique_live t'
  | None => True
  end /\
  match final_table (Early.eval (mkos 4242 0 0 0) ("sleep 100 &" +:+ NL) shell0)
  with
  | Some t' => table_inv t' /\ unique_live t'
  | None => True
  end.
Proof.
  split; [exact table_inv_table0|].
  exact (eval_keeps_table_invariant (mkos 4242 0 0 0) ("sleep 100 &" +:+ NL)
           shell0 table_inv_table0).
Defined.

(** The loop of [main] does not return. *)
Lemma main_loop_no_return (turns : list turn) (last_arrivals : list arrival) :
  forall s u s', main_loop turns last_arrivals s <> Ret u s'.
Proof.
  induction turns as [|t turns IH]; intros s u s'; simpl;
    unfold mbind, M_bind, printf, emit, exit0.
  - by destruct (handle_all last_arrivals _).
  - destruct (handle_all (arrivals t) _) as [? s1| | | |]; try done.
    destruct (eval (answers t) (cmdline t) s1) as [? s2| | | |]; done.
Qed.

(** X22: a whole session of the shell, from its start: whatever the lines
    read, the answers of the operating system and the signals that arrive
    at the prompt, [main] does not return, and when the shell exits, or
    continues in a child after [fork], the table keeps the invariant and
    has at most one live slot for a pid. *)
Theorem main_loop_invariant (turns : list turn) (last_arrivals : list arrival) :
  match main_loop turns last_arrivals shell0 with
  | Ret _ _ => False
  | Exit s' | Child _ s' => table_inv (tbl s') /\ unique_live (tbl s')
  | Hang | Undef _ => True
  end.
Proof.
  pose proof (keeps_inv_main_loop turns last_arrivals shell0 table_inv_table0)
    as Hinv.
  pose proof (main_loop_no_return turns last_arrivals shell0) as Hret.
  destruct (main_loop turns last_arrivals shell0) as [u s'|s'|argv s'| |];
    simpl in *; try done.
  - by destruct (Hret u s').
  - split; [done | by apply table_inv_unique_live].
  - split; [done | by apply table_inv_unique_live].
Qed.

(** A session of three lines: a background job, the list of the jobs, and
    [quit]; the child of the job is reaped at the third prompt. *)
Example main_loop_session :
  main_loop
    [mkturn [] (mkos 4242 0 0 0) ("sleep 1 &" +:+ NL);
     mkturn [] (mkos 0 0 0 0) ("jobs" +:+ NL);
     mkturn [ChildStatus (pending_of [(4242, Exited 0)])] (mkos 0 0 0 0)
       ("quit" +:+ NL)]
    [] shell0 =
  Exit (mkshell
          (mktable (<[99%nat := mkjob 4242 1 TERMINATED]> (jobs table0)) 1) 0
          [Stdout "> ";
           Stdout ("[1] 4242 sleep 1 &" +:+ NL +:+ NL);
           Stdout "> ";
           Stdout ("[1] 4242 RUNNING" +:+ NL);
           Stdout "> ";
           Stdout ("[ReapChildHandler] setjobstat 4242 to TERMINATED" +:+ NL)]
          []).
Proof. reflexivity. Qed.

(** ** Forwarding a signal *)


(** ** When [addjob] returns *)

(** X24: [addjob] returns exactly when some slot holds the pid, or some
    slot is free and the counter is not INT_MAX; in every other case its
    behaviour is undefined. *)
Theorem addjob_returns_iff (p : Z) (s : Status) (t : table) :
  (exists r t', addjob p s t = Done (r, t')) <->
  (exists k j, jobs t !! k = Some j /\ pid j = p) \/
  ((exists k j, jobs t !! k = Some j /\ is_free (st j) = true) /\
   next_jid t <> INT_MAX).
Proof.
  split; [|apply addjob_defined].
  intros (r & t' & H). pose proof H as H0.
  apply addjob_Done in H as [(i & j & E & _) | (E & k & j & Hk & Hf & _)].
  - left. apply find_pid_Some in E as (k & _ & Hk & Hp & _). eauto.
  - right. split; [eauto|]. by apply (addjob_alloc_below_max p r s t t').
Qed.
